(** * Block production core of the generator (core/generator/block.go)

    A shallow embedding of [MakeBlock], [commitBlock],
    [getAndAddBlockSignatures], [indexKey], [getSig], [nonNilSigs],
    [getPendingBlock] and [savePendingBlock], together with the properties
    of the block-production cycle: pending-block recovery, the conditional
    upsert of the pending slot, quorum signature collection and commit. *)

From Stdlib Require Import ZArith Lia.
From stdpp Require Import base numbers option list functions sorting strings pretty gmap.

Local Open Scope string_scope.
Local Open Scope list_scope.
Local Open Scope Z_scope.

(** ** Bytes, hashes, keys *)

(** A Go [[]byte]; where the code distinguishes the nil slice the model
    uses [option bytes] with [None] for nil. *)
Abbreviation bytes := (list Byte.byte).

(** [bc.Hash], of which the code only uses [Bytes()]. *)
Record bcHash := mkHash { Bytes : bytes }.

(** [ed25519.PublicKey] is a byte slice. *)
Abbreviation PublicKey := bytes.

#[global] Instance byte_eq_dec : EqDecision Byte.byte := Byte.byte_eq_dec.

#[global] Instance byte_countable : Countable Byte.byte.
Proof.
  apply (inj_countable Byte.to_N Byte.of_N).
  intros b. apply Byte.of_to_N.
Defined.

#[global] Instance bcHash_eq_dec : EqDecision bcHash.
Proof. solve_decision. Defined.

#[global] Instance bcHash_countable : Countable bcHash.
Proof.
  apply (inj_countable' Bytes mkHash). by intros [].
Defined.

(** ** Errors

    Values of Go's [error]: a root error carrying a message
    ([errors.New], [fmt.Errorf]) or an error wrapped with context
    ([errors.Wrap]). *)
Inductive error : Type :=
| errors_New (msg : string)
| errors_Wrap (cause : error) (msg : string).

#[global] Instance error_eq_dec : EqDecision error.
Proof. solve_decision. Defined.

(** [errors.Root]: the innermost error of a chain of wraps. *)
Fixpoint errors_Root (e : error) : error :=
  match e with
  | errors_New _ => e
  | errors_Wrap c _ => errors_Root c
  end.

(** [err.Error()]: a wrap prefixes its message to its cause's. *)
Fixpoint Error (e : error) : string :=
  match e with
  | errors_New msg => msg
  | errors_Wrap c msg => msg +:+ ": " +:+ Error c
  end.

Definition errTooFewSigners : error := errors_New "too few signers".

Definition errDuplicateBlock : error :=
  errors_New "generator already committed to a block at that height".

(** [sql.ErrNoRows]. *)
Definition sql_ErrNoRows : error := errors_New "sql: no rows in result set".

(** [fmt.Errorf("got %d of %d needed signatures", nready, quorum)]. *)
Definition errGotOf (nready quorum : Z) : error :=
  errors_New ("got " +:+ pretty nready +:+ " of " +:+ pretty quorum
              +:+ " needed signatures").

(** Unsigned 64-bit arithmetic: [Block.Height] is a [uint64]. *)
Definition wrap64 (z : Z) : Z := z mod 2 ^ 64.

(** ** Data model *)

Section Generator.

(** Types owned by the collaborators: transactions ([legacy.Tx]), ledger
    snapshots ([state.Snapshot]), mapped blocks ([bc.Block]) and the chain
    backend behind [g.chain]. *)
Context {Tx Snapshot BcBlock Chain : Type}.

(** [legacy.Block], with the fields the generator reads and writes. *)
Record Block := mkBlock {
  Height : Z;                      (* uint64 *)
  Transactions : list Tx;
  ConsensusProgram : bytes;
  Witness : list bytes;
}.

(** [b.Witness = w], the only field the generator assigns. *)
Definition setWitness (b : Block) (w : list bytes) : Block :=
  {| Height := Height b; Transactions := Transactions b;
     ConsensusProgram := ConsensusProgram b; Witness := w |}.

(** The [BlockSigner] interface: [SignBlock(ctx, marshalledBlock)] returns
    a signature (possibly nil) and an error (possibly nil). *)
Record BlockSigner := mkSigner {
  SignBlock : bytes → option bytes * option error;
}.

(** The row of [generator_pending_block]: columns [data] and [height]
    (nullable, hence the [COALESCE] of the upsert). *)
Record PendingRow := mkRow {
  row_data : Block;
  row_height : option Z;
}.

(** [pg.DB] as far as the generator uses it: the singleton pending row and
    the failures the next statements will meet ([QueryRow], [Exec],
    [RowsAffected]). *)
Record DB := mkDB {
  pending : option PendingRow;
  query_fault : option error;
  exec_fault : option error;
  rows_fault : option error;
}.

(** The fields of [Generator] that [block.go] touches. *)
Record Generator := mkGenerator {
  chain : Chain;
  db : DB;
  pool : list Tx;
  poolHashes : gmap bcHash bool;
  signers : list BlockSigner;
}.

(** Code outside [block.go] that the cycle calls. *)
Class Collaborators := {
  (* ed25519.Verify(key, msg, sig) *)
  ed25519_Verify : PublicKey → bytes → bytes → bool;
  (* vmutil.ParseBlockMultiSigProgram(program) *)
  vmutil_ParseBlockMultiSigProgram : bytes → (list PublicKey * Z) + error;
  (* b.Hash() *)
  Block_Hash : Block → bcHash;
  (* the encoder behind b.MarshalText() *)
  encodeSignable : Z → list Tx → bytes → bytes + error;
  (* legacy.MapBlock(b) *)
  legacy_MapBlock : Block → BcBlock;
  (* state.Copy(s): the contents of the copy *)
  state_Copy : Snapshot → Snapshot;
  (* s.ApplyBlock(mapped): the contents of s afterwards, and the error *)
  Snapshot_ApplyBlock : Snapshot → BcBlock → Snapshot * option error;
  (* g.chain.State(): the head block (nil before the initial block) and the
     address of its snapshot *)
  chain_State : Chain → option Block * nat;
  (* g.chain.GenerateBlock(ctx, prev, snapshot, time, txs) *)
  chain_GenerateBlock :
    Chain → option Block → Snapshot → Z → list Tx → (Block * Snapshot) + error;
  (* g.chain.CommitAppliedBlock(ctx, b, s) *)
  chain_CommitAppliedBlock : Chain → Block → Snapshot → Chain * option error;
}.

Context `{!Collaborators}.

(** Modelled from the spec: [legacy.Block.MarshalText] is not part of
    [block.go]; the spec describes the canonical signable bytes as a
    deterministic encoding of the block that excludes the witness field.
    The encoder itself is a collaborator and may fail. *)
Definition MarshalText (b : Block) : bytes + error :=
  encodeSignable (Height b) (Transactions b) (ConsensusProgram b).

(** ** Observable actions of a cycle *)

Inductive Event : Type :=
| EvCopySnapshot (src dst : nat)
| EvApplyBlock (s : nat) (b : Block)
| EvSwapPool (txs : list Tx)
| EvGenerateBlock (prev : option Block) (time : Z) (txs : list Tx)
| EvSavePending (b : Block)
| EvSignRequest (i : nat) (payload : bytes)
| EvLogSignerError (i : nat) (e : error)
| EvLogInvalidSignature (h : bcHash) (sig : bytes)
| EvCommitAppliedBlock (b : Block) (s : nat).

(** How a cycle can end without returning: [log.Fatalkv] exits the
    process, a nil [prevBlock] is dereferenced, or the collector waits
    forever on [done]. *)
Inductive Halt : Type :=
| Fatal (e : error)
| NilDereference
| Blocked.

(** The state a cycle runs in: the generator, the snapshot objects by
    address ([next] is the first unused address) and the actions so far. *)
Record Machine := mkMachine {
  gen : Generator;
  store : nat → Snapshot;
  next : nat;
  trace : list Event;
}.

(** What the scheduler decides for one signing round: the order in which
    the signers' completions arrive on [done], and the state of the
    caller's context ([ctx.Err() == context.Canceled]). *)
Record Schedule := mkSchedule {
  arrivals : list nat;
  ctxCanceled : bool;
}.

(** A computation returns a value or halts, and leaves a machine. *)
Definition Run (A : Type) : Type := Machine → (A + Halt) * Machine.

Definition ret {A} (a : A) : Run A := λ m, (inl a, m).

Definition halt {A} (h : Halt) : Run A := λ m, (inr h, m).

Definition bind {A B} (c : Run A) (k : A → Run B) : Run B :=
  λ m, match c m with
       | (inl a, m') => k a m'
       | (inr h, m') => (inr h, m')
       end.

(** Appending actions to the trace of a machine. *)
Definition addTrace (m : Machine) (evs : list Event) : Machine :=
  {| gen := gen m; store := store m; next := next m;
     trace := trace m ++ evs |}.

Definition emit (evs : list Event) : Run unit := λ m, (inl tt, addTrace m evs).

Definition getGen : Run Generator := λ m, (inl (gen m), m).

Notation "'let*' x ':=' c 'in' k" := (bind c (λ x, k))
  (at level 10, x pattern, c at level 100, k at level 200).
Notation "c ';;' k" := (bind c (λ _, k))
  (at level 100, k at level 200, right associativity).

Definition setChain (g : Generator) (c : Chain) : Generator :=
  {| chain := c; db := db g; pool := pool g; poolHashes := poolHashes g;
     signers := signers g |}.

Definition setDB (g : Generator) (d : DB) : Generator :=
  {| chain := chain g; db := d; pool := pool g; poolHashes := poolHashes g;
     signers := signers g |}.

(** ** Signature matching *)

(** [indexKey]: the position of the first key under which [sig] verifies,
    or -1. *)
Fixpoint indexKey_from (i : Z) (keys : list PublicKey) (msg sig : bytes) : Z :=
  match keys with
  | [] => -1
  | key :: rest =>
      if ed25519_Verify key msg sig then i
      else indexKey_from (i + 1) rest msg sig
  end.

Definition indexKey (keys : list PublicKey) (msg sig : bytes) : Z :=
  indexKey_from 0 keys msg sig.

(** [nonNilSigs]: the non-nil entries, in order. *)
Fixpoint nonNilSigs (a : list (option bytes)) : list bytes :=
  match a with
  | [] => []
  | p :: rest =>
      match p with
      | Some sig => sig :: nonNilSigs rest
      | None => nonNilSigs rest
      end
  end.

(** [getSig]: what signer [i] leaves in [replies[i]], and what it logs
    before it sends [i] on [done]. *)
Definition getSig (canceled : bool) (signer : BlockSigner)
    (marshalledBlock : bytes) (i : nat) : option bytes * list Event :=
  let '(sig, err) := SignBlock signer marshalledBlock in
  (sig,
   match err with
   | Some e => if canceled then [] else [EvLogSignerError i e]
   | None => []
   end).

(** ** Quorum collection *)

(** The collector's variables [goodSigs] and [nready], and what has been
    logged during the round. *)
Record Collected := mkCollected {
  goodSigs : list (option bytes);
  nready : Z;
  logged : list Event;
}.

(** One iteration of the collection loop on the reply of one signer; what
    the signer's own [getSig] logged enters the trace here, when its
    completion is received. A reply matched to a key whose slot is filled
    takes neither branch. *)
Definition collectReply (pubkeys : list PublicKey) (b : Block)
    (hashForSig : bcHash) (st : Collected)
    (reply : option bytes * list Event) : Collected :=
  let st := {| goodSigs := goodSigs st; nready := nready st;
               logged := logged st ++ reply.2 |} in
  match reply.1 with
  | None => st
  | Some sig =>
      let k := indexKey pubkeys (Bytes hashForSig) sig in
      if bool_decide (0 ≤ k)
         && bool_decide (goodSigs st !! Z.to_nat k = Some None)
      then {| goodSigs := <[Z.to_nat k := Some sig]> (goodSigs st);
              nready := nready st + 1;
              logged := logged st |}
      else if bool_decide (k < 0)
      then {| goodSigs := goodSigs st; nready := nready st;
              logged := logged st
                          ++ [EvLogInvalidSignature (Block_Hash b) sig] |}
      else st
  end.

(** [replies[<-done]] for a completion [i]; [done] only carries the
    indices of launched signers. *)
Definition replyOf (launched : list (option bytes * list Event)) (i : nat)
    : option bytes * list Event :=
  default (None, []) (launched !! i).

(** The loop [for i := 0; i < len(g.signers) && nready < quorum; i++]:
    [n] iterations are left and [arr] are the completions still to come.
    The loop blocks when it waits for a completion that never comes. *)
Fixpoint collect (pubkeys : list PublicKey) (quorum : Z) (b : Block)
    (hashForSig : bcHash) (launched : list (option bytes * list Event))
    (n : nat) (arr : list nat) (st : Collected) : option Halt * Collected :=
  match n with
  | O => (None, st)
  | S n' =>
      if bool_decide (nready st < quorum) then
        match arr with
        | [] => (Some Blocked, st)
        | i :: arr' =>
            collect pubkeys quorum b hashForSig launched n' arr'
              (collectReply pubkeys b hashForSig st (replyOf launched i))
        end
      else (None, st)
  end.

(** [goodSigs := make([][]byte, len(pubkeys))] and [nready := 0]. *)
Definition emptyCollected (pubkeys : list PublicKey) : Collected :=
  {| goodSigs := replicate (length pubkeys) None; nready := 0; logged := [] |}.

(** The loop [go getSig(ctx, signer, marshalledBlock, &replies[i], i, done)]:
    the requests it issues, and what every signer will leave behind. *)
Definition signRequests (marshalledBlock : bytes) (ss : list BlockSigner)
    : list Event :=
  imap (λ i _, EvSignRequest i marshalledBlock) ss.

Definition launch (sch : Schedule) (marshalledBlock : bytes)
    (ss : list BlockSigner) : list (option bytes * list Event) :=
  imap (λ i signer, getSig (ctxCanceled sch) signer marshalledBlock i) ss.

(** [getAndAddBlockSignatures]: returns the error and the block, whose
    witness is assigned on success. *)
Definition getAndAddBlockSignatures (sch : Schedule) (b : Block)
    (prevBlock : option Block) : Run (option error * Block) :=
  match prevBlock with
  | None =>
      if bool_decide (Height b = 1) then ret (None, b)
      else halt NilDereference
  | Some prev =>
      match vmutil_ParseBlockMultiSigProgram (ConsensusProgram prev) with
      | inr err =>
          ret (Some (errors_Wrap err "parsing prevblock output script"), b)
      | inl (pubkeys, quorum) =>
          let* g := getGen in
          if bool_decide (Z.of_nat (length (signers g)) < quorum)
          then ret (Some errTooFewSigners, b)
          else
            let hashForSig := Block_Hash b in
            match MarshalText b with
            | inr err => ret (Some (errors_Wrap err "marshalling block"), b)
            | inl marshalledBlock =>
                emit (signRequests marshalledBlock (signers g));;
                let collected :=
                  collect pubkeys quorum b hashForSig
                    (launch sch marshalledBlock (signers g))
                    (length (signers g)) (arrivals sch)
                    (emptyCollected pubkeys) in
                emit (logged collected.2);;
                match collected.1 with
                | Some h => halt h
                | None =>
                    if bool_decide (nready collected.2 < quorum)
                    then ret (Some (errGotOf (nready collected.2) quorum), b)
                    else ret (None,
                              setWitness b (nonNilSigs (goodSigs collected.2)))
                end
            end
      end
  end.

(** [g.chain.CommitAppliedBlock(ctx, b, s)]. *)
Definition CommitAppliedBlock (b : Block) (s : nat) : Run (option error) :=
  λ m,
    let '(c, err) := chain_CommitAppliedBlock (chain (gen m)) b (store m s) in
    (inl err,
     {| gen := setChain (gen m) c; store := store m; next := next m;
        trace := trace m ++ [EvCommitAppliedBlock b s] |}).

(** [commitBlock]. *)
Definition commitBlock (sch : Schedule) (b : Block) (s : nat)
    (prevBlock : option Block) : Run (option error * option bytes) :=
  let* signed := getAndAddBlockSignatures sch b prevBlock in
  let '(err, b) := signed in
  match err with
  | Some e => ret (Some (errors_Wrap e "sign"), None)
  | None =>
      let* err := CommitAppliedBlock b s in
      match err with
      | Some e => ret (Some (errors_Wrap e "commit"), None)
      | None => ret (None, Some (Bytes (Block_Hash b)))
      end
  end.

(** ** The pending-block slot *)

(** [db.QueryRow(ctx, "SELECT data FROM generator_pending_block").Scan(&block)]. *)
Definition db_QueryRow_Scan (d : DB) : Block + error :=
  match query_fault d with
  | Some e => inr e
  | None =>
      match pending d with
      | None => inr sql_ErrNoRows
      | Some r => inl (row_data r)
      end
  end.

(** [getPendingBlock]: the block (nil when there is no row) and the error. *)
Definition getPendingBlock (d : DB) : option Block * option error :=
  match db_QueryRow_Scan d with
  | inr err =>
      if decide (err = sql_ErrNoRows) then (None, None)
      else (None,
            Some (errors_Wrap err "retrieving generated pending block query"))
  | inl block => (Some block, None)
  end.

(** [COALESCE(generator_pending_block.height, 0)]. *)
Definition coalesceHeight (r : PendingRow) : Z := default 0 (row_height r).

(** The statement of [savePendingBlock] on the singleton row:
    [INSERT ... VALUES($1, $2) ON CONFLICT (singleton) DO UPDATE SET ...
     WHERE COALESCE(generator_pending_block.height, 0) < excluded.height].
    Returns the row afterwards and the number of rows affected. *)
Definition upsertPending (slot : option PendingRow) (data : Block)
    (height : Z) : option PendingRow * Z :=
  match slot with
  | None => (Some {| row_data := data; row_height := Some height |}, 1)
  | Some r =>
      if bool_decide (coalesceHeight r < height)
      then (Some {| row_data := data; row_height := Some height |}, 1)
      else (Some r, 0)
  end.

Definition setPending (d : DB) (slot : option PendingRow) : DB :=
  {| pending := slot; query_fault := query_fault d;
     exec_fault := exec_fault d; rows_fault := rows_fault d |}.

(** [savePendingBlock]: the error and the database afterwards. *)
Definition savePendingBlock (d : DB) (b : Block) : option error * DB :=
  match exec_fault d with
  | Some err =>
      (Some (errors_Wrap err "generator_pending_block insert query"), d)
  | None =>
      let '(slot, affected) := upsertPending (pending d) b (Height b) in
      let d := setPending d slot in
      match rows_fault d with
      | Some err =>
          (Some (errors_Wrap err "generator_pending_block rows affected"), d)
      | None =>
          if bool_decide (affected = 0) then (Some errDuplicateBlock, d)
          else (None, d)
      end
  end.

(** ** The cycle *)

(** [s = state.Copy(latestSnapshot)]: a new snapshot object. *)
Definition copySnapshot (src : nat) : Run nat :=
  λ m,
    (inl (next m),
     {| gen := gen m;
        store := <[next m := state_Copy (store m src)]> (store m);
        next := S (next m);
        trace := trace m ++ [EvCopySnapshot src (next m)] |}).

(** [s.ApplyBlock(legacy.MapBlock(b))]: updates the object at [s]. *)
Definition applyBlock (s : nat) (b : Block) : Run (option error) :=
  λ m,
    let '(snap, err) := Snapshot_ApplyBlock (store m s) (legacy_MapBlock b) in
    (inl err,
     {| gen := gen m; store := <[s := snap]> (store m); next := next m;
        trace := trace m ++ [EvApplyBlock s b] |}).

(** Under [g.mu]: [txs := g.pool; g.pool = nil;
    g.poolHashes = make(map[bc.Hash]bool)]. *)
Definition swapPool : Run (list Tx) :=
  λ m,
    (inl (pool (gen m)),
     {| gen := {| chain := chain (gen m); db := db (gen m); pool := [];
                  poolHashes := ∅; signers := signers (gen m) |};
        store := store m; next := next m;
        trace := trace m ++ [EvSwapPool (pool (gen m))] |}).

(** [g.chain.GenerateBlock(ctx, latestBlock, latestSnapshot, time, txs)]:
    the new block with the address of its snapshot, or the error. *)
Definition GenerateBlock (latestBlock : option Block) (latestSnapshot : nat)
    (time : Z) (txs : list Tx) : Run ((Block * nat) + error) :=
  λ m,
    match chain_GenerateBlock (chain (gen m)) latestBlock
            (store m latestSnapshot) time txs with
    | inl (b, snap) =>
        (inl (inl (b, next m)),
         {| gen := gen m; store := <[next m := snap]> (store m);
            next := S (next m);
            trace := trace m ++ [EvGenerateBlock latestBlock time txs] |})
    | inr err =>
        (inl (inr err),
         {| gen := gen m; store := store m; next := next m;
            trace := trace m ++ [EvGenerateBlock latestBlock time txs] |})
    end.

(** [savePendingBlock(ctx, g.db, b)] on the generator's database. *)
Definition savePending (b : Block) : Run (option error) :=
  λ m,
    let '(err, d) := savePendingBlock (db (gen m)) b in
    (inl err,
     {| gen := setDB (gen m) d; store := store m; next := next m;
        trace := trace m ++ [EvSavePending b] |}).

(** The guard [b != nil && (latestBlock == nil ||
    b.Height == latestBlock.Height+1)]. *)
Definition pendingIsNext (b : option Block) (latestBlock : option Block)
    : bool :=
  match b with
  | None => false
  | Some b =>
      match latestBlock with
      | None => true
      | Some latest => bool_decide (Height b = wrap64 (Height latest + 1))
      end
  end.

(** Where [MakeBlock] stands before its last statement: it has returned
    already, or it has the block to sign and its snapshot. *)
Inductive Prepared : Type :=
| Return (err : option error) (hash : option bytes)
| Proceed (b : Block) (s : nat).

(** The first branch of [MakeBlock]: the pending block is applied to a
    copy of the head snapshot. *)
Definition reusePending (b : Block) (latestSnapshot : nat) : Run Prepared :=
  let* s := copySnapshot latestSnapshot in
  let* err := applyBlock s b in
  match err with
  | Some e => halt (Fatal e)
  | None => ret (Proceed b s)
  end.

(** The second branch of [MakeBlock]: a block is generated from the
    transactions taken out of the pool. *)
Definition generateFresh (time : Z) (latestBlock : option Block)
    (latestSnapshot : nat) : Run Prepared :=
  let* txs := swapPool in
  let* generated := GenerateBlock latestBlock latestSnapshot time txs in
  match generated with
  | inr err => ret (Return (Some (errors_Wrap err "generate")) None)
  | inl (b, s) =>
      if bool_decide (length (Transactions b) = 0%nat)
      then ret (Return None (Some (Bytes (Block_Hash b))))
      else
        let* err := savePending b in
        match err with
        | Some e =>
            ret (Return (Some (errors_Wrap e "saving pending block")) None)
        | None => ret (Proceed b s)
        end
  end.

(** [MakeBlock] up to its last statement; also returns [latestBlock]. *)
Definition prepareBlock (time : Z) : Run (Prepared * option Block) :=
  let* g := getGen in
  let '(latestBlock, latestSnapshot) := chain_State (chain g) in
  let '(b, err) := getPendingBlock (db g) in
  match err with
  | Some e =>
      ret (Return (Some (errors_Wrap e "retrieving the pending block")) None,
           latestBlock)
  | None =>
      let* p :=
        match b with
        | Some pb =>
            if pendingIsNext b latestBlock
            then reusePending pb latestSnapshot
            else generateFresh time latestBlock latestSnapshot
        | None => generateFresh time latestBlock latestSnapshot
        end in
      ret (p, latestBlock)
  end.

(** [MakeBlock]: returns the error and the hash of the block. Its last
    statement is [return g.commitBlock(ctx, b, s, latestBlock)]. *)
Definition MakeBlock (sch : Schedule) (time : Z)
    : Run (option error * option bytes) :=
  let* p := prepareBlock time in
  match p with
  | (Return err hash, _) => ret (err, hash)
  | (Proceed b s, latestBlock) => commitBlock sch b s latestBlock
  end.

(** ** Vocabulary of the properties *)

(** [sig] is matched to key [k]: [k] is the first position of the key set
    whose key verifies [sig] over [msg]. *)
Definition firstMatch (keys : list PublicKey) (msg sig : bytes) (k : nat)
    : Prop :=
  ∃ key, keys !! k = Some key
         ∧ ed25519_Verify key msg sig = true
         ∧ ∀ j key', (j < k)%nat → keys !! j = Some key'
                     → ed25519_Verify key' msg sig = false.

(** The filled slots from position [start] on, with their positions. *)
Fixpoint filledAt (start : nat) (a : list (option bytes))
    : list (nat * bytes) :=
  match a with
  | [] => []
  | Some sig :: rest => (start, sig) :: filledAt (S start) rest
  | None :: rest => filledAt (S start) rest
  end.

(** The signature that signer [i] left in [replies[i]]. *)
Definition sigOf (launched : list (option bytes * list Event)) (i : nat)
    : option bytes :=
  (replyOf launched i).1.

(** What holds of the collector's variables once the completions [done]
    have been processed: every filled slot holds a processed signature
    matched to that slot, every processed signature that matches a key
    finds its slot filled, and [nready] counts the filled slots. *)
Record Inv (pubkeys : list PublicKey) (hashForSig : bcHash)
    (launched : list (option bytes * list Event)) (done : list nat)
    (st : Collected) : Prop := {
  inv_length : length (goodSigs st) = length pubkeys;
  inv_sound k sig :
    goodSigs st !! k = Some (Some sig) →
    firstMatch pubkeys (Bytes hashForSig) sig k
    ∧ ∃ i, i ∈ done ∧ sigOf launched i = Some sig;
  inv_complete i sig k :
    i ∈ done → sigOf launched i = Some sig →
    firstMatch pubkeys (Bytes hashForSig) sig k →
    ∃ sig', goodSigs st !! k = Some (Some sig');
  inv_count : nready st = Z.of_nat (length (nonNilSigs (goodSigs st)));
}.

(** The signature that signer [i] of [ss] returns on [marshalledBlock]. *)
Definition signatureOf (ss : list BlockSigner) (marshalledBlock : bytes)
    (i : nat) : option bytes :=
  ss !! i ≫= λ signer, (SignBlock signer marshalledBlock).1.

(** The key positions to which at least one of the signatures [sigs] is
    matched, in key-set order. *)
Definition matchedSlots (pubkeys : list PublicKey) (msg : bytes)
    (sigs : list (option bytes)) : list nat :=
  filter
    (λ k, existsb
            (λ r, match r with
                  | Some sig =>
                      bool_decide (indexKey pubkeys msg sig = Z.of_nat k)
                  | None => false
                  end) sigs = true)
    (seq 0 (length pubkeys)).

(** The actions of a cycle before signing starts. *)
Definition preparatory (e : Event) : Prop :=
  match e with
  | EvSignRequest _ _ | EvCommitAppliedBlock _ _
  | EvLogSignerError _ _ | EvLogInvalidSignature _ _ => False
  | _ => True
  end.

(** What is logged during a round. *)
Definition logEvent (e : Event) : Prop :=
  match e with
  | EvLogSignerError _ _ | EvLogInvalidSignature _ _ => True
  | _ => False
  end.

(** What signature collection adds to the trace: requests and logs. *)
Definition requestOrLog (e : Event) : Prop :=
  match e with
  | EvSignRequest _ _ | EvLogSignerError _ _ | EvLogInvalidSignature _ _ =>
      True
  | _ => False
  end.

(** When the guard of [MakeBlock] holds: a pending block exists, and
    there is no head block or the pending block is the next one. *)
Definition reuseCondition (pb latestBlock : option Block) : Prop :=
  ∃ b, pb = Some b
       ∧ (latestBlock = None
          ∨ ∃ latest, latestBlock = Some latest
                      ∧ Height b = wrap64 (Height latest + 1)).

(** The condition for reuse in the words of the specification: a pending
    block exists and its height is the head block's height plus one. *)
Definition specReuseCondition (pb latestBlock : option Block) : Prop :=
  ∃ b latest, pb = Some b ∧ latestBlock = Some latest
              ∧ Height b = Height latest + 1.

(** ** Properties of signature matching *)

Lemma indexKey_from_cases i keys msg sig :
  (indexKey_from i keys msg sig = -1
   ∧ ∀ j key, keys !! j = Some key → ed25519_Verify key msg sig = false)
  ∨ (∃ k, indexKey_from i keys msg sig = i + Z.of_nat k
          ∧ firstMatch keys msg sig k).
Proof.
  revert i. induction keys as [|key rest IH]; intros i; simpl.
  - left. split; [done|]. intros j key Hj. by rewrite lookup_nil in Hj.
  - destruct (ed25519_Verify key msg sig) eqn:Hv.
    + right. exists 0%nat. split; [lia|].
      exists key. split_and!; [done|done|]. intros j key' Hj. lia.
    + destruct (IH (i + 1)) as [[Hm Hnone]|(k & Hk & key' & Hl & Hv' & Hmin)].
      * left. split; [done|]. intros [|j] key' Hj; simplify_eq/=; eauto.
      * right. exists (S k). split; [lia|].
        exists key'. split_and!; [done|done|].
        intros [|j] key'' Hlt Hj; simplify_eq/=; [done|].
        eapply Hmin; [|done]. lia.
Qed.

Lemma firstMatch_unique keys msg sig k1 k2 :
  firstMatch keys msg sig k1 → firstMatch keys msg sig k2 → k1 = k2.
Proof.
  intros (key1 & Hl1 & Hv1 & Hm1) (key2 & Hl2 & Hv2 & Hm2).
  destruct (Nat.lt_trichotomy k1 k2) as [Hlt|[->|Hlt]]; [|done|].
  - specialize (Hm2 _ _ Hlt Hl1). congruence.
  - specialize (Hm1 _ _ Hlt Hl2). congruence.
Qed.

(** [indexKey] returns the matched position, and -1 exactly when no key
    verifies the signature. *)
Lemma indexKey_firstMatch keys msg sig k :
  indexKey keys msg sig = Z.of_nat k ↔ firstMatch keys msg sig k.
Proof.
  unfold indexKey.
  destruct (indexKey_from_cases 0 keys msg sig) as [[Hm _]|(k' & Hk & Hf)].
  - split; [lia|]. intros (key & Hl & Hv & _).
    destruct (indexKey_from_cases 0 keys msg sig)
      as [[_ Hnone]|(k' & Hk & Hf)]; [|lia].
    specialize (Hnone _ _ Hl). congruence.
  - split.
    + intros Heq. assert (k = k') as -> by lia. done.
    + intros Hf'. rewrite (firstMatch_unique _ _ _ _ _ Hf' Hf). lia.
Qed.

Lemma indexKey_range keys msg sig :
  -1 ≤ indexKey keys msg sig < Z.of_nat (length keys).
Proof.
  unfold indexKey.
  destruct (indexKey_from_cases 0 keys msg sig)
    as [[Hm _]|(k & Hk & key & Hl & _)]; [lia|].
  apply lookup_lt_Some in Hl. lia.
Qed.

Lemma indexKey_nonneg keys msg sig :
  0 ≤ indexKey keys msg sig →
  ∃ k, indexKey keys msg sig = Z.of_nat k ∧ firstMatch keys msg sig k.
Proof.
  intros Hk. unfold indexKey in *.
  destruct (indexKey_from_cases 0 keys msg sig) as [[Hm _]|(k & Hk' & Hf)];
    [lia|].
  exists k. split; [lia|done].
Qed.

(** ** Filled slots of [goodSigs] *)

Lemma filledAt_sigs start a : (filledAt start a).*2 = nonNilSigs a.
Proof.
  revert start. induction a as [|[sig|] rest IH]; intros start; simpl;
    [done|by rewrite IH|by rewrite IH].
Qed.

Lemma elem_of_filledAt start a k sig :
  (k, sig) ∈ filledAt start a
  ↔ (start ≤ k)%nat ∧ a !! (k - start)%nat = Some (Some sig).
Proof.
  revert start. induction a as [|[sig'|] rest IH]; intros start; simpl.
  - rewrite elem_of_nil. split; [done|]. intros [_ Hl].
    by rewrite lookup_nil in Hl.
  - rewrite elem_of_cons, IH. split.
    + intros [?|[Hle Hl]]; simplify_eq.
      * by rewrite Nat.sub_diag.
      * split; [lia|]. by replace (k - start)%nat with (S (k - S start)) by lia.
    + intros [Hle Hl]. destruct (decide (k = start)) as [->|Hne].
      * rewrite Nat.sub_diag in Hl. left. by simplify_eq/=.
      * right. split; [lia|].
        by replace (k - start)%nat with (S (k - S start)) in Hl by lia.
  - rewrite IH. split.
    + intros [Hle Hl]. split; [lia|].
      by replace (k - start)%nat with (S (k - S start)) by lia.
    + intros [Hle Hl]. destruct (decide (k = start)) as [->|Hne].
      * by rewrite Nat.sub_diag in Hl.
      * split; [lia|].
        by replace (k - start)%nat with (S (k - S start)) in Hl by lia.
Qed.

Lemma filledAt_sorted start a :
  StronglySorted lt (filledAt start a).*1.
Proof.
  revert start. induction a as [|[sig|] rest IH]; intros start; simpl;
    [constructor| |done].
  constructor; [done|]. apply Forall_forall. intros k Hk.
  apply list_elem_of_fmap in Hk as [[k' sig'] [-> Hk]].
  apply elem_of_filledAt in Hk. simpl. lia.
Qed.

Lemma StronglySorted_lt_NoDup (l : list nat) : StronglySorted lt l → NoDup l.
Proof.
  induction 1 as [|x l _ IH Hall]; constructor; [|done].
  intros Hx. rewrite Forall_forall in Hall. specialize (Hall _ Hx). lia.
Qed.

Lemma nonNilSigs_insert a k sig :
  a !! k = Some None →
  length (nonNilSigs (<[k := Some sig]> a)) = S (length (nonNilSigs a)).
Proof.
  revert k. induction a as [|[sig'|] rest IH]; intros [|k] Hk;
    simplify_eq/=; auto.
Qed.

Lemma nonNilSigs_replicate n : nonNilSigs (replicate n None) = [].
Proof. induction n; simpl; auto. Qed.

(** ** The collection loop *)

Section Collection.

Variables (pubkeys : list PublicKey) (quorum : Z) (b : Block).
Variables (hashForSig : bcHash) (launched : list (option bytes * list Event)).

Abbreviation msg := (Bytes hashForSig).
Abbreviation step := (collectReply pubkeys b hashForSig).
Abbreviation loop := (collect pubkeys quorum b hashForSig launched).
Abbreviation Inv' := (Inv pubkeys hashForSig launched).

Lemma Inv_init :
  Inv' [] {| goodSigs := replicate (length pubkeys) None; nready := 0;
            logged := [] |}.
Proof.
  split; simpl.
  - by rewrite length_replicate.
  - intros k sig Hk. apply lookup_replicate in Hk as [? _]. done.
  - intros i sig k Hi. by apply elem_of_nil in Hi.
  - by rewrite nonNilSigs_replicate.
Qed.

(** The three outcomes of one iteration. *)
Lemma collectReply_cases st reply :
  (reply.1 = None
   ∧ goodSigs (step st reply) = goodSigs st
   ∧ nready (step st reply) = nready st
   ∧ logged (step st reply) = logged st ++ reply.2)
  ∨ (∃ sig k, reply.1 = Some sig ∧ firstMatch pubkeys msg sig k ∧
       ((goodSigs st !! k = Some None
         ∧ goodSigs (step st reply) = <[k := Some sig]> (goodSigs st)
         ∧ nready (step st reply) = nready st + 1
         ∧ logged (step st reply) = logged st ++ reply.2)
        ∨ (goodSigs st !! k ≠ Some None
           ∧ goodSigs (step st reply) = goodSigs st
           ∧ nready (step st reply) = nready st
           ∧ logged (step st reply) = logged st ++ reply.2)))
  ∨ (∃ sig, reply.1 = Some sig ∧ indexKey pubkeys msg sig = -1
       ∧ goodSigs (step st reply) = goodSigs st
       ∧ nready (step st reply) = nready st
       ∧ logged (step st reply)
         = logged st ++ reply.2 ++ [EvLogInvalidSignature (Block_Hash b) sig]).
Proof.
  unfold collectReply. destruct (reply.1) as [sig|] eqn:Hr; simpl.
  2: { left. done. }
  right. pose proof (indexKey_range pubkeys msg sig) as Hrange.
  destruct (decide (0 ≤ indexKey pubkeys msg sig)) as [Hk|Hk].
  - left. destruct (indexKey_nonneg _ _ _ Hk) as (k & Heq & Hf).
    exists sig, k. split_and!; [done|done|]. rewrite Heq, Nat2Z.id.
    rewrite (bool_decide_eq_true_2 (0 ≤ Z.of_nat k)) by lia. simpl.
    case_bool_decide as Hslot; simpl.
    + left. done.
    + right. rewrite (bool_decide_eq_false_2 (Z.of_nat k < 0)) by lia. done.
  - right. exists sig. assert (indexKey pubkeys msg sig = -1) as Heq by lia.
    rewrite Heq. simpl. rewrite <-(assoc_L (++)). done.
Qed.

Ltac in_done :=
  rewrite elem_of_app, list_elem_of_singleton; auto.

Lemma Inv_step done st i :
  Inv' done st → Inv' (done ++ [i]) (step st (replyOf launched i)).
Proof.
  intros [Hlen Hsound Hcompl Hcount].
  destruct (collectReply_cases st (replyOf launched i))
    as [(Hr & Hg & Hn & _)
       |[(sig & k & Hr & Hf & [(Hslot & Hg & Hn & _)|(Hslot & Hg & Hn & _)])
        |(sig & Hr & Hk & Hg & Hn & _)]].
  - split; rewrite ?Hg, ?Hn; [done| | |done].
    + intros k sig Hk. destruct (Hsound _ _ Hk) as [? (j & ? & ?)].
      split; [done|]. exists j. split; [in_done|done].
    + intros j sig k Hj Hs Hf. apply elem_of_app in Hj as [Hj|Hj]; [eauto|].
      apply list_elem_of_singleton in Hj as ->. unfold sigOf in Hs. congruence.
  - split; rewrite ?Hg, ?Hn.
    + by rewrite length_insert.
    + intros k' sig' Hk'. destruct (decide (k = k')) as [<-|Hne].
      * rewrite list_lookup_insert_eq in Hk' by by eapply lookup_lt_Some.
        simplify_eq. split; [done|]. exists i. split; [in_done|done].
      * rewrite list_lookup_insert_ne in Hk' by done.
        destruct (Hsound _ _ Hk') as [? (j & ? & ?)].
        split; [done|]. exists j. split; [in_done|done].
    + intros j sig' k' Hj Hs Hf'. destruct (decide (k = k')) as [<-|Hne].
      * exists sig. by rewrite list_lookup_insert_eq by by eapply lookup_lt_Some.
      * rewrite list_lookup_insert_ne by done.
        apply elem_of_app in Hj as [Hj|Hj]; [eauto|].
        apply list_elem_of_singleton in Hj as ->. unfold sigOf in Hs.
        assert (sig' = sig) as -> by congruence.
        destruct Hne. eapply firstMatch_unique; eauto.
    + rewrite nonNilSigs_insert by done. lia.
  - split; rewrite ?Hg, ?Hn; [done| | |done].
    + intros k' sig' Hk'. destruct (Hsound _ _ Hk') as [? (j & ? & ?)].
      split; [done|]. exists j. split; [in_done|done].
    + intros j sig' k' Hj Hs Hf'. apply elem_of_app in Hj as [Hj|Hj]; [eauto|].
      apply list_elem_of_singleton in Hj as ->. unfold sigOf in Hs.
      assert (sig' = sig) as -> by congruence.
      rewrite (firstMatch_unique _ _ _ _ _ Hf' Hf).
      destruct Hf as (key & Hl & _). apply lookup_lt_Some in Hl.
      rewrite <-Hlen in Hl. apply lookup_lt_is_Some in Hl as [[sig''|] Hl];
        [eauto|done].
  - split; rewrite ?Hg, ?Hn; [done| | |done].
    + intros k' sig' Hk'. destruct (Hsound _ _ Hk') as [? (j & ? & ?)].
      split; [done|]. exists j. split; [in_done|done].
    + intros j sig' k' Hj Hs Hf'. apply elem_of_app in Hj as [Hj|Hj]; [eauto|].
      apply list_elem_of_singleton in Hj as ->. unfold sigOf in Hs.
      assert (sig' = sig) as -> by congruence.
      apply indexKey_firstMatch in Hf'. lia.
Qed.

Lemma collectReply_nready st reply :
  nready st ≤ nready (step st reply) ≤ nready st + 1.
Proof.
  destruct (collectReply_cases st reply)
    as [(_ & _ & Hn & _)
       |[(sig & k & _ & _ & [(_ & _ & Hn & _)|(_ & _ & Hn & _)])
        |(sig & _ & _ & _ & Hn & _)]]; lia.
Qed.

(** The loop processes a prefix of the completions; it returns when the
    quorum is reached or every signer has been heard, and blocks only when
    the completions run out before that. *)
Lemma collect_spec n arr st done :
  Inv' done st →
  ∃ pre rest,
    arr = pre ++ rest
    ∧ (length pre ≤ n)%nat
    ∧ Inv' (done ++ pre) (loop n arr st).2
    ∧ (nready st ≤ quorum → nready (loop n arr st).2 ≤ quorum)
    ∧ match (loop n arr st).1 with
      | None => quorum ≤ nready (loop n arr st).2 ∨ length pre = n
      | Some h =>
          h = Blocked ∧ rest = [] ∧ nready (loop n arr st).2 < quorum
          ∧ (length pre < n)%nat
      end.
Proof.
  revert arr st done. induction n as [|n IH]; intros arr st done HInv; simpl.
  { exists [], arr. rewrite app_nil_r. split_and!; auto. }
  case_bool_decide as Hq.
  2: { exists [], arr. rewrite app_nil_r. simpl.
       split_and!; try done; [lia|left; lia]. }
  destruct arr as [|i arr].
  { exists [], []. rewrite (app_nil_r done). simpl.
    split_and!; try done; lia. }
  destruct (IH arr _ _ (Inv_step _ _ i HInv))
    as (pre & rest & -> & Hlen & HInv' & Hle & Hend).
  exists (i :: pre), rest. rewrite <-(assoc_L (++)) in HInv'. simpl.
  pose proof (collectReply_nready st (replyOf launched i)).
  split_and!; [done|lia|done|intros; apply Hle; lia|].
  destruct (loop n (pre ++ rest) _).1.
  - destruct Hend as (? & ? & ? & ?). split_and!; [done|done|done|lia].
  - destruct Hend as [?|?]; [by left|right; lia].
Qed.

End Collection.

(** ** Counting the matched keys *)

Lemma elem_of_matchedSlots pubkeys msg sigs k :
  k ∈ matchedSlots pubkeys msg sigs
  ↔ ∃ sig, Some sig ∈ sigs ∧ firstMatch pubkeys msg sig k.
Proof.
  unfold matchedSlots. rewrite list_elem_of_filter, existsb_exists. split.
  - intros [([sig|] & Hin & Hm) _]; [|done].
    apply bool_decide_eq_true_1, indexKey_firstMatch in Hm.
    exists sig. split; [by apply list_elem_of_In|done].
  - intros (sig & Hin & Hf). split.
    + exists (Some sig). split; [by apply list_elem_of_In|].
      by apply bool_decide_eq_true_2, indexKey_firstMatch.
    + destruct Hf as (key & Hl & _). apply lookup_lt_Some in Hl.
      apply elem_of_seq. lia.
Qed.

Lemma matchedSlots_NoDup pubkeys msg sigs :
  NoDup (matchedSlots pubkeys msg sigs).
Proof. apply NoDup_filter, NoDup_seq. Qed.

Lemma replyOf_launch sch mb ss i :
  replyOf (launch sch mb ss) i
  = match ss !! i with
    | Some signer => getSig (ctxCanceled sch) signer mb i
    | None => (None, [])
    end.
Proof.
  unfold replyOf, launch. rewrite list_lookup_imap.
  by destruct (ss !! i).
Qed.

Lemma sigOf_launch sch mb ss i :
  sigOf (launch sch mb ss) i = signatureOf ss mb i.
Proof.
  unfold sigOf, signatureOf. rewrite replyOf_launch.
  destruct (ss !! i) as [signer|]; simpl; [|done].
  unfold getSig. by destruct (SignBlock signer mb).
Qed.

Lemma signatureOf_elem_of ss mb i sig :
  signatureOf ss mb i = Some sig →
  (i < length ss)%nat
  ∧ Some sig ∈ (λ signer, (SignBlock signer mb).1) <$> ss.
Proof.
  unfold signatureOf. destruct (ss !! i) as [signer|] eqn:Hi; simpl; [|done].
  intros Hs. split; [by eapply lookup_lt_Some|].
  apply list_elem_of_fmap. exists signer. split; [done|].
  by eapply list_elem_of_lookup_2.
Qed.

(** The completions are distinct indices of launched signers, so there are
    no more of them than signers. *)
Lemma arrivals_bounded (arr : list nat) (n : nat) :
  NoDup arr → (∀ i, i ∈ arr → (i < n)%nat) → (length arr ≤ n)%nat.
Proof.
  intros Hnd Hlt. assert (arr ⊆+ seq 0 n) as Hsub.
  { apply NoDup_submseteq; [done|].
    intros i Hi. apply elem_of_seq. specialize (Hlt _ Hi). lia. }
  apply submseteq_length in Hsub. by rewrite length_seq in Hsub.
Qed.

Section Counting.

Variables (pubkeys : list PublicKey) (quorum : Z) (b : Block).
Variables (hashForSig : bcHash) (launched : list (option bytes * list Event)).

Abbreviation cmsg := (Bytes hashForSig).

(** Distinct keys that processed signatures are matched to are all among
    the filled slots. *)
Lemma Inv_count_ge done st (ks : list nat) :
  Inv pubkeys hashForSig launched done st →
  NoDup ks →
  (∀ k, k ∈ ks → ∃ i sig, i ∈ done ∧ sigOf launched i = Some sig
                          ∧ firstMatch pubkeys cmsg sig k) →
  Z.of_nat (length ks) ≤ nready st.
Proof.
  intros HInv Hnd Hks. rewrite (inv_count _ _ _ _ _ HInv).
  rewrite <-(filledAt_sigs 0), length_fmap, <-(length_fmap fst).
  apply inj_le, submseteq_length, NoDup_submseteq; [done|].
  intros k Hk. destruct (Hks _ Hk) as (i & sig & Hi & Hs & Hf).
  destruct (inv_complete _ _ _ _ _ HInv _ _ _ Hi Hs Hf) as [sig' Hl].
  apply list_elem_of_fmap. exists (k, sig'). split; [done|].
  apply elem_of_filledAt. rewrite Nat.sub_0_r. split; [lia|done].
Qed.

(** The filled slots are exactly the keys matched by the processed
    signatures; when every signer has been processed their number is the
    number of matched keys. *)
Lemma Inv_count_all done st (ss : list BlockSigner) sch mb :
  launched = launch sch mb ss →
  Inv pubkeys hashForSig launched done st →
  (∀ i, (i < length ss)%nat → i ∈ done) →
  nready st
  = Z.of_nat (length (matchedSlots pubkeys cmsg
                        ((λ signer, (SignBlock signer mb).1) <$> ss))).
Proof.
  intros -> HInv Hall. rewrite (inv_count _ _ _ _ _ HInv).
  rewrite <-(filledAt_sigs 0), length_fmap, <-(length_fmap fst).
  f_equal. apply Permutation_length, NoDup_Permutation.
  - apply StronglySorted_lt_NoDup, filledAt_sorted.
  - apply matchedSlots_NoDup.
  - intros k. rewrite elem_of_matchedSlots, list_elem_of_fmap. split.
    + intros ([k' sig] & -> & Hk). apply elem_of_filledAt in Hk as [_ Hk].
      rewrite Nat.sub_0_r in Hk. simpl.
      destruct (inv_sound _ _ _ _ _ HInv _ _ Hk) as [Hf (i & _ & Hs)].
      rewrite sigOf_launch in Hs. apply signatureOf_elem_of in Hs as [_ Hs].
      eauto.
    + intros (sig & Hin & Hf).
      apply list_elem_of_fmap in Hin as (signer & Hsig & Hin).
      apply list_elem_of_lookup in Hin as [i Hi].
      assert (sigOf (launch sch mb ss) i = Some sig) as Hs.
      { rewrite sigOf_launch. unfold signatureOf. by rewrite Hi. }
      destruct (inv_complete _ _ _ _ _ HInv i sig k) as [sig' Hl];
        [by eapply Hall, lookup_lt_Some|done|done|].
      exists (k, sig'). split; [done|].
      apply elem_of_filledAt. rewrite Nat.sub_0_r. split; [lia|done].
Qed.

(** The filled slots never outnumber the matched keys. *)
Lemma Inv_count_le done st (ss : list BlockSigner) sch mb :
  launched = launch sch mb ss →
  Inv pubkeys hashForSig launched done st →
  nready st
  ≤ Z.of_nat (length (matchedSlots pubkeys cmsg
                        ((λ signer, (SignBlock signer mb).1) <$> ss))).
Proof.
  intros -> HInv. rewrite (inv_count _ _ _ _ _ HInv).
  rewrite <-(filledAt_sigs 0), length_fmap, <-(length_fmap fst).
  apply inj_le, submseteq_length, NoDup_submseteq.
  { apply StronglySorted_lt_NoDup, filledAt_sorted. }
  intros k. rewrite elem_of_matchedSlots, list_elem_of_fmap.
  intros ([k' sig] & -> & Hk). apply elem_of_filledAt in Hk as [_ Hk].
  rewrite Nat.sub_0_r in Hk. simpl.
  destruct (inv_sound _ _ _ _ _ HInv _ _ Hk) as [Hf (i & _ & Hs)].
  rewrite sigOf_launch in Hs. apply signatureOf_elem_of in Hs as [_ Hs].
  eauto.
Qed.

End Counting.

(** ** The cycle, step by step *)

Lemma addTrace_addTrace m evs1 evs2 :
  addTrace (addTrace m evs1) evs2 = addTrace m (evs1 ++ evs2).
Proof. unfold addTrace. simpl. by rewrite (assoc_L (++)). Qed.

(** Signature collection once the requests go out: the previous block's
    program parses, enough signers are configured and the block
    marshals. *)
Lemma getAndAddBlockSignatures_collect sch b prev pubkeys quorum mb m :
  vmutil_ParseBlockMultiSigProgram (ConsensusProgram prev)
    = inl (pubkeys, quorum) →
  quorum ≤ Z.of_nat (length (signers (gen m))) →
  MarshalText b = inl mb →
  getAndAddBlockSignatures sch b (Some prev) m
  = let collected :=
      collect pubkeys quorum b (Block_Hash b)
        (launch sch mb (signers (gen m))) (length (signers (gen m)))
        (arrivals sch) (emptyCollected pubkeys) in
    (match collected.1 with
     | Some h => inr h
     | None =>
         if bool_decide (nready collected.2 < quorum)
         then inl (Some (errGotOf (nready collected.2) quorum), b)
         else inl (None, setWitness b (nonNilSigs (goodSigs collected.2)))
     end,
     addTrace m (signRequests mb (signers (gen m)) ++ logged collected.2)).
Proof.
  intros Hparse Hn Hmb. unfold getAndAddBlockSignatures. rewrite Hparse.
  unfold bind, getGen, emit. simpl.
  rewrite bool_decide_eq_false_2 by lia. rewrite Hmb. simpl.
  rewrite addTrace_addTrace.
  destruct (collect _ _ _ _ _ _ _ _) as [[h|] st]; simpl; [done|].
  by case_bool_decide.
Qed.

(** Preparing the block leaves the chain and the signers alone, and
    neither asks for a signature nor commits. *)
Lemma prepareBlock_frame time m :
  signers (gen (prepareBlock time m).2) = signers (gen m)
  ∧ chain (gen (prepareBlock time m).2) = chain (gen m)
  ∧ ∃ evs, trace (prepareBlock time m).2 = trace m ++ evs
           ∧ Forall preparatory evs.
Proof.
  unfold prepareBlock, bind, getGen, ret, halt. simpl.
  destruct (chain_State _) as [latestBlock latestSnapshot].
  destruct (getPendingBlock _) as [pb [e|]]; simpl.
  { split_and!; [done|done|]. exists []. by rewrite app_nil_r. }
  assert (∀ r, r = generateFresh time latestBlock latestSnapshot m →
    signers (gen r.2) = signers (gen m) ∧ chain (gen r.2) = chain (gen m)
    ∧ ∃ evs, trace r.2 = trace m ++ evs ∧ Forall preparatory evs) as Hfresh.
  { intros r ->.
    unfold generateFresh, bind, swapPool, GenerateBlock, savePending, ret.
    simpl. destruct (chain_GenerateBlock _ _ _ _ _) as [[b s]|e]; simpl.
    - case_bool_decide; simpl.
      + split_and!; [done|done|]. eexists. rewrite <-(assoc_L (++)).
        split; [done|]. repeat constructor.
      + destruct (savePendingBlock _ _) as [[e|] d]; simpl;
          (split_and!; [done|done|]; eexists; rewrite <-!(assoc_L (++));
           split; [done|]; repeat constructor).
    - split_and!; [done|done|]. eexists. rewrite <-(assoc_L (++)).
      split; [done|]. repeat constructor. }
  assert (∀ (r : (Prepared + Halt) * Machine),
    (signers (gen r.2) = signers (gen m) ∧ chain (gen r.2) = chain (gen m)
     ∧ ∃ evs, trace r.2 = trace m ++ evs ∧ Forall preparatory evs) →
    let r' := match r with
              | (inl a, m') => (inl (a, latestBlock), m')
              | (inr h, m') => (inr h, m')
              end in
    signers (gen r'.2) = signers (gen m) ∧ chain (gen r'.2) = chain (gen m)
    ∧ ∃ evs, trace r'.2 = trace m ++ evs ∧ Forall preparatory evs) as Hret.
  { intros [[a|h] m'] Hr; exact Hr. }
  destruct pb as [pb|]; [|by apply Hret, Hfresh].
  destruct (pendingIsNext _ _); [|by apply Hret, Hfresh].
  apply Hret. unfold reusePending, bind, copySnapshot, applyBlock, ret, halt.
  simpl. destruct (Snapshot_ApplyBlock _ _) as [snap [e|]]; simpl;
    (split_and!; [done|done|]; eexists; rewrite <-(assoc_L (++));
     split; [done|]; repeat constructor).
Qed.

(** The witness built from the filled slots lists them in key-set order. *)
Lemma Inv_witness pubkeys hashForSig launched done st :
  Inv pubkeys hashForSig launched done st →
  ∃ slots,
    StronglySorted lt slots
    ∧ Forall2 (λ k sig,
                 firstMatch pubkeys (Bytes hashForSig) sig k
                 ∧ ∃ i, i ∈ done ∧ sigOf launched i = Some sig)
        slots (nonNilSigs (goodSigs st)).
Proof.
  intros HInv. exists (filledAt 0 (goodSigs st)).*1.
  split; [apply filledAt_sorted|].
  rewrite <-(filledAt_sigs 0). apply Forall2_fmap, Forall_Forall2_diag.
  apply Forall_forall. intros [k sig] Hk. simpl.
  apply elem_of_filledAt in Hk as [_ Hk]. rewrite Nat.sub_0_r in Hk.
  by apply (inv_sound _ _ _ _ _ HInv).
Qed.

(** When enough distinct keys are matched by the signatures of signers
    that reply, the loop returns with exactly [quorum] slots filled. *)
Lemma collect_reaches_quorum pubkeys quorum b hashForSig launched n arr ks :
  0 ≤ quorum →
  NoDup arr → (∀ i, i ∈ arr → (i < n)%nat) →
  NoDup ks → quorum ≤ Z.of_nat (length ks) →
  (∀ k, k ∈ ks → ∃ i sig, i ∈ arr ∧ sigOf launched i = Some sig
                          ∧ firstMatch pubkeys (Bytes hashForSig) sig k) →
  let collected :=
    collect pubkeys quorum b hashForSig launched n arr
      (emptyCollected pubkeys) in
  collected.1 = None ∧ nready collected.2 = quorum
  ∧ ∃ pre rest, arr = pre ++ rest
                ∧ Inv pubkeys hashForSig launched pre collected.2.
Proof.
  intros Hq Hnd Hlt Hks Hlen Hmatched collected.
  destruct (collect_spec pubkeys quorum b hashForSig launched n arr
              (emptyCollected pubkeys) [] (Inv_init _ _ _))
    as (pre & rest & Harr & Hpre & HInv & Hle & Hend).
  fold collected in HInv, Hle, Hend. simpl in HInv, Hle.
  specialize (Hle Hq).
  assert (rest = [] → quorum ≤ nready collected.2) as Hall.
  { intros ->. rewrite app_nil_r in Harr. subst pre.
    etrans; [exact Hlen|]. by eapply Inv_count_ge. }
  pose proof (arrivals_bounded arr n Hnd Hlt) as Hbound.
  rewrite Harr, length_app in Hbound.
  destruct (collected.1) as [h|].
  - destruct Hend as (_ & Hrest & Hlow & _). specialize (Hall Hrest). lia.
  - split; [done|]. split; [|by eauto].
    destruct Hend as [?|Hfull]; [lia|].
    assert (rest = []) as Hrest by (apply length_zero_iff_nil; lia).
    specialize (Hall Hrest). lia.
Qed.

(** When every signer has replied and fewer than [quorum] keys are
    matched, the loop returns with as many slots filled as keys are
    matched. *)
Lemma collect_misses_quorum pubkeys quorum b hashForSig sch mb ss :
  arrivals sch ≡ₚ seq 0 (length ss) →
  Z.of_nat (length (matchedSlots pubkeys (Bytes hashForSig)
                      ((λ signer, (SignBlock signer mb).1) <$> ss)))
    < quorum →
  let collected :=
    collect pubkeys quorum b hashForSig (launch sch mb ss) (length ss)
      (arrivals sch) (emptyCollected pubkeys) in
  collected.1 = None
  ∧ nready collected.2
    = Z.of_nat (length (matchedSlots pubkeys (Bytes hashForSig)
                          ((λ signer, (SignBlock signer mb).1) <$> ss))).
Proof.
  intros Hperm Hfew collected.
  destruct (collect_spec pubkeys quorum b hashForSig (launch sch mb ss)
              (length ss) (arrivals sch) (emptyCollected pubkeys) []
              (Inv_init _ _ _))
    as (pre & rest & Harr & Hpre & HInv & _ & Hend).
  fold collected in HInv, Hend. simpl in HInv.
  pose proof (Inv_count_le _ _ _ _ _ _ _ _ eq_refl HInv) as Hle.
  pose proof (Permutation_length Hperm) as Hlen.
  rewrite length_seq, Harr, length_app in Hlen.
  assert (rest = [] → collected.1 = None →
          nready collected.2
          = Z.of_nat (length (matchedSlots pubkeys (Bytes hashForSig)
                                ((λ signer, (SignBlock signer mb).1) <$> ss))))
    as Hall.
  { intros -> _. rewrite app_nil_r in Harr. subst pre.
    eapply Inv_count_all; [done|done|].
    intros i Hi. rewrite Hperm. apply elem_of_seq. lia. }
  destruct (collected.1) as [h|].
  - destruct Hend as (_ & -> & _ & Hlt). simpl in Hlen. lia.
  - split; [done|]. apply Hall; [|done].
    destruct Hend as [?|Hfull]; [lia|].
    apply length_zero_iff_nil. lia.
Qed.

Lemma replyOf_launch_logs sch mb ss i :
  Forall logEvent (replyOf (launch sch mb ss) i).2.
Proof.
  rewrite replyOf_launch. destruct (ss !! i) as [signer|]; [|constructor].
  unfold getSig. destruct (SignBlock signer mb) as [sig [e|]]; simpl;
    [|constructor].
  destruct (ctxCanceled sch); repeat constructor.
Qed.

Lemma collectReply_logs pubkeys b hashForSig st reply :
  Forall logEvent (logged st) → Forall logEvent reply.2 →
  Forall logEvent (logged (collectReply pubkeys b hashForSig st reply)).
Proof.
  intros Hst Hreply.
  destruct (collectReply_cases pubkeys b hashForSig st reply)
    as [(_ & _ & _ & ->)
       |[(sig & k & _ & _ & [(_ & _ & _ & ->)|(_ & _ & _ & ->)])
        |(sig & _ & _ & _ & _ & ->)]];
    rewrite ?Forall_app; split_and?; try done.
  repeat constructor.
Qed.

Lemma collect_logs pubkeys quorum b hashForSig sch mb ss n arr st :
  Forall logEvent (logged st) →
  Forall logEvent
    (logged (collect pubkeys quorum b hashForSig (launch sch mb ss)
               n arr st).2).
Proof.
  revert arr st. induction n as [|n IH]; intros arr st Hst; simpl; [done|].
  case_bool_decide; [|done]. destruct arr as [|i arr]; [done|].
  apply IH, collectReply_logs; [done|apply replyOf_launch_logs].
Qed.

Lemma logEvent_requestOrLog evs :
  Forall logEvent evs → Forall requestOrLog evs.
Proof. intros Hall. eapply Forall_impl; [exact Hall|]. by intros []. Qed.

Lemma signRequests_requestOrLog mb ss : Forall requestOrLog (signRequests mb ss).
Proof.
  apply Forall_forall. intros e He.
  apply list_elem_of_lookup in He as [j Hj]. unfold signRequests in Hj.
  rewrite list_lookup_imap in Hj. destruct (ss !! j); by simplify_eq/=.
Qed.

Lemma signRequests_payload mb ss i payload :
  EvSignRequest i payload ∈ signRequests mb ss → payload = mb.
Proof.
  intros He. apply list_elem_of_lookup in He as [j Hj].
  unfold signRequests in Hj. rewrite list_lookup_imap in Hj.
  destruct (ss !! j); by simplify_eq/=.
Qed.

(** Signature collection changes nothing but the trace, to which it adds
    requests, all for the marshalled block, and logs. *)
Lemma getAndAddBlockSignatures_frame sch b prevBlock m :
  ∃ evs,
    (getAndAddBlockSignatures sch b prevBlock m).2 = addTrace m evs
    ∧ Forall requestOrLog evs
    ∧ ∀ i payload, EvSignRequest i payload ∈ evs → MarshalText b = inl payload.
Proof.
  assert (addTrace m [] = m) as Hnil.
  { unfold addTrace. rewrite app_nil_r. by destruct m. }
  assert (∀ r : (option error * Block) + Halt,
    ∃ evs, (r, m).2 = addTrace m evs ∧ Forall requestOrLog evs
    ∧ ∀ i payload, EvSignRequest i payload ∈ evs
                   → MarshalText b = inl payload) as Hsame.
  { intros r. exists []. split_and!; [by rewrite Hnil|constructor|].
    intros i payload Hin. by apply elem_of_nil in Hin. }
  destruct prevBlock as [prev|].
  2: { unfold getAndAddBlockSignatures, ret, halt.
       case_bool_decide; apply Hsame. }
  destruct (vmutil_ParseBlockMultiSigProgram (ConsensusProgram prev))
    as [[pubkeys quorum]|e] eqn:Hp.
  2: { unfold getAndAddBlockSignatures, ret. rewrite Hp. apply Hsame. }
  destruct (decide (Z.of_nat (length (signers (gen m))) < quorum)) as [Hlt|Hge].
  { unfold getAndAddBlockSignatures, bind, getGen, ret. rewrite Hp. simpl.
    rewrite bool_decide_eq_true_2 by done. apply Hsame. }
  destruct (MarshalText b) as [mb|e] eqn:Hmb.
  2: { unfold getAndAddBlockSignatures, bind, getGen, ret. rewrite Hp. simpl.
       rewrite bool_decide_eq_false_2 by done. rewrite Hmb. apply Hsame. }
  rewrite (getAndAddBlockSignatures_collect sch b prev pubkeys quorum mb m
             Hp ltac:(lia) Hmb).
  cbv zeta. eexists. split; [done|]. split.
  - apply Forall_app. split; [apply signRequests_requestOrLog|].
    apply logEvent_requestOrLog, collect_logs. constructor.
  - intros i payload Hin. apply elem_of_app in Hin as [Hin|Hin].
    + by rewrite (signRequests_payload _ _ _ _ Hin).
    + pose proof (collect_logs pubkeys quorum b (Block_Hash b) sch mb
                    (signers (gen m)) (length (signers (gen m)))
                    (arrivals sch) (emptyCollected pubkeys)
                    (Forall_nil_2 _)) as Hlogs.
      rewrite Forall_forall in Hlogs. by apply Hlogs in Hin.
Qed.

(** [commitBlock] adds the requests and logs of the collection and then,
    at most, the commit; it leaves the pool, the database and the signers
    alone. *)
Lemma commitBlock_frame sch b s prevBlock m :
  ∃ evs last,
    trace (commitBlock sch b s prevBlock m).2 = trace m ++ evs ++ last
    ∧ Forall requestOrLog evs
    ∧ (∀ i payload, EvSignRequest i payload ∈ evs
                    → MarshalText b = inl payload)
    ∧ (last = [] ∨ ∃ b', last = [EvCommitAppliedBlock b' s])
    ∧ db (gen (commitBlock sch b s prevBlock m).2) = db (gen m)
    ∧ pool (gen (commitBlock sch b s prevBlock m).2) = pool (gen m)
    ∧ poolHashes (gen (commitBlock sch b s prevBlock m).2)
      = poolHashes (gen m)
    ∧ signers (gen (commitBlock sch b s prevBlock m).2) = signers (gen m).
Proof.
  destruct (getAndAddBlockSignatures_frame sch b prevBlock m)
    as (evs & Hm & Hevs & Hpay).
  unfold commitBlock, bind.
  destruct (getAndAddBlockSignatures sch b prevBlock m)
    as [[[[e|] b']|h] m'] eqn:Hrun; simpl in Hm; subst m'; simpl.
  - exists evs, []. rewrite app_nil_r. split_and!; auto.
  - unfold CommitAppliedBlock, ret. simpl.
    destruct (chain_CommitAppliedBlock _ _ _) as [c [e|]]; simpl;
      exists evs, [EvCommitAppliedBlock b' s];
      rewrite (assoc_L (++)); split_and!; eauto.
  - exists evs, []. rewrite app_nil_r. split_and!; auto.
Qed.

(** ** Quorum reached, quorum missed *)

(** C1: let the cycle reach signing with block [b]; let the previous
    block's consensus program give the key set [pubkeys] and the quorum
    [quorum], with [0 <= quorum <= number of configured signers]. If there
    are at least [quorum] distinct keys each matched (first key, in key-set
    order, that verifies it) by the signature of a signer that replies,
    and the backend accepts the commit, then [MakeBlock] returns the hash
    and no error, and the committed block's witness has exactly [quorum]
    signatures, listed by increasing key position, each returned by a
    signer that replied and each verifying under its own, distinct key. *)
Theorem MakeBlock_quorum_reached sch time m m1 b s prev pubkeys quorum mb ks :
  prepareBlock time m = (inl (Proceed b s, Some prev), m1) →
  vmutil_ParseBlockMultiSigProgram (ConsensusProgram prev)
    = inl (pubkeys, quorum) →
  0 ≤ quorum ≤ Z.of_nat (length (signers (gen m))) →
  MarshalText b = inl mb →
  NoDup (arrivals sch) →
  (∀ i, i ∈ arrivals sch → (i < length (signers (gen m)))%nat) →
  NoDup ks → quorum ≤ Z.of_nat (length ks) →
  (∀ k, k ∈ ks →
     ∃ i sig, i ∈ arrivals sch
              ∧ signatureOf (signers (gen m)) mb i = Some sig
              ∧ firstMatch pubkeys (Bytes (Block_Hash b)) sig k) →
  (∀ w, (chain_CommitAppliedBlock (chain (gen m)) (setWitness b w)
           (store m1 s)).2 = None) →
  ∃ w slots m2,
    MakeBlock sch time m
      = (inl (None, Some (Bytes (Block_Hash (setWitness b w)))), m2)
    ∧ last (trace m2) = Some (EvCommitAppliedBlock (setWitness b w) s)
    ∧ length w = Z.to_nat quorum
    ∧ StronglySorted lt slots
    ∧ Forall2 (λ k sig,
                 (∃ key, pubkeys !! k = Some key
                         ∧ ed25519_Verify key (Bytes (Block_Hash b)) sig
                           = true)
                 ∧ ∃ i, i ∈ arrivals sch
                        ∧ signatureOf (signers (gen m)) mb i = Some sig)
        slots w.
Proof.
  intros Hprep Hparse [Hq Hn] Hmb Hnd Hlt Hks Hlen Hmatched Hcommit.
  destruct (prepareBlock_frame time m) as (Hss & Hch & _).
  rewrite Hprep in Hss, Hch. simpl in Hss, Hch.
  unfold MakeBlock, bind. rewrite Hprep. simpl. unfold commitBlock, bind.
  rewrite (getAndAddBlockSignatures_collect _ _ _ _ _ _ _ Hparse)
    by (by rewrite ?Hss).
  rewrite Hss. cbv zeta.
  destruct (collect_reaches_quorum pubkeys quorum b (Block_Hash b)
              (launch sch mb (signers (gen m))) (length (signers (gen m)))
              (arrivals sch) ks Hq Hnd Hlt Hks Hlen)
    as (Hnone & Hready & pre & rest & Harr & HInv).
  { intros k Hk. destruct (Hmatched _ Hk) as (i & sig & ? & ? & ?).
    exists i, sig. by rewrite sigOf_launch. }
  rewrite Hnone, Hready. rewrite bool_decide_eq_false_2 by lia.
  set (st := (collect _ _ _ _ _ _ _ _).2) in *.
  destruct (Inv_witness _ _ _ _ _ HInv) as (slots & Hsorted & Hall).
  exists (nonNilSigs (goodSigs st)), slots.
  unfold CommitAppliedBlock, ret. simpl. rewrite Hch.
  specialize (Hcommit (nonNilSigs (goodSigs st))).
  destruct (chain_CommitAppliedBlock _ _ _) as [c err]. simpl in Hcommit.
  subst err. eexists. split_and!; [done| | |done|].
  - simpl. by rewrite last_snoc.
  - apply Nat2Z.inj. rewrite <-(inv_count _ _ _ _ _ HInv). lia.
  - eapply Forall2_impl; [exact Hall|]. simpl.
    intros k sig [(key & Hl & Hv & _) (i & Hi & Hs)].
    split; [by eauto|]. exists i. rewrite sigOf_launch in Hs.
    split; [|done]. rewrite Harr. apply elem_of_app. by left.
Qed.

(** C2: let the cycle reach signing with block [b], with at least
    [quorum] signers configured, so that signatures are collected. If
    every signer has replied and the keys matched by the returned
    signatures number fewer than [quorum], then [MakeBlock] returns the
    collection error "got <matched> of <quorum> needed signatures"
    (wrapped by [commitBlock]), [CommitAppliedBlock] is not invoked, and
    the chain and the pending row are as they were when signing began. *)
Theorem MakeBlock_quorum_missed sch time m m1 b s prev pubkeys quorum mb :
  prepareBlock time m = (inl (Proceed b s, Some prev), m1) →
  vmutil_ParseBlockMultiSigProgram (ConsensusProgram prev)
    = inl (pubkeys, quorum) →
  quorum ≤ Z.of_nat (length (signers (gen m))) →
  MarshalText b = inl mb →
  arrivals sch ≡ₚ seq 0 (length (signers (gen m))) →
  Z.of_nat (length (matchedSlots pubkeys (Bytes (Block_Hash b))
                      ((λ signer, (SignBlock signer mb).1)
                         <$> signers (gen m))))
    < quorum →
  ∃ m2 evs,
    MakeBlock sch time m
      = (inl (Some (errors_Wrap
                      (errGotOf
                         (Z.of_nat
                            (length
                               (matchedSlots pubkeys (Bytes (Block_Hash b))
                                  ((λ signer, (SignBlock signer mb).1)
                                     <$> signers (gen m)))))
                         quorum) "sign"),
              None), m2)
    ∧ trace m2 = trace m ++ evs
    ∧ (∀ b' s', EvCommitAppliedBlock b' s' ∉ evs)
    ∧ chain (gen m2) = chain (gen m)
    ∧ db (gen m2) = db (gen m1).
Proof.
  intros Hprep Hparse Hn Hmb Hperm Hfew.
  destruct (prepareBlock_frame time m) as (Hss & Hch & evs & Htr & Hprepev).
  rewrite Hprep in Hss, Hch, Htr. simpl in Hss, Hch, Htr.
  unfold MakeBlock, bind. rewrite Hprep. simpl. unfold commitBlock, bind.
  rewrite (getAndAddBlockSignatures_collect _ _ _ _ _ _ _ Hparse)
    by (by rewrite ?Hss).
  rewrite Hss. cbv zeta.
  destruct (collect_misses_quorum pubkeys quorum b (Block_Hash b) sch mb
              (signers (gen m)) Hperm Hfew) as [Hnone Hready].
  rewrite Hnone, Hready. rewrite bool_decide_eq_true_2 by lia.
  set (st := (collect _ _ _ _ _ _ _ _).2) in *.
  unfold ret. do 2 eexists. split_and!; [done| |  |done|done].
  - simpl. rewrite Htr, <-(assoc_L (++)). done.
  - intros b' s' Hin. rewrite !elem_of_app in Hin.
    destruct Hin as [Hin|[Hin|Hin]].
    + rewrite Forall_forall in Hprepev. by apply Hprepev in Hin.
    + unfold signRequests in Hin. apply list_elem_of_lookup in Hin as [j Hj].
      rewrite list_lookup_imap in Hj.
      by destruct (signers (gen m) !! j).
    + pose proof (collect_logs pubkeys quorum b (Block_Hash b) sch mb
                    (signers (gen m)) (length (signers (gen m)))
                    (arrivals sch) (emptyCollected pubkeys)
                    (Forall_nil_2 _)) as Hlogs.
      fold st in Hlogs. rewrite Forall_forall in Hlogs.
      by apply Hlogs in Hin.
Qed.

(** ** The conditional upsert *)

(** C3: on a database that answers (no I/O failure), [savePendingBlock]
    succeeds and leaves the row of [b] in the slot if and only if the slot
    was empty or held a row of strictly lower height (a NULL height counts
    as 0, as in the statement's COALESCE); if the stored height is at
    least [b]'s, the database is unchanged and the error is
    [errDuplicateBlock]. An I/O failure is returned wrapped, which is
    never [errDuplicateBlock]. *)
Theorem savePendingBlock_conditional_upsert (d : DB) (b : Block) :
  exec_fault d = None → rows_fault d = None →
  ((savePendingBlock d b).1 = None
   ∧ pending (savePendingBlock d b).2
     = Some {| row_data := b; row_height := Some (Height b) |}
   ↔ pending d = None
     ∨ ∃ r, pending d = Some r ∧ coalesceHeight r < Height b)
  ∧ (∀ r, pending d = Some r → Height b ≤ coalesceHeight r →
          savePendingBlock d b = (Some errDuplicateBlock, d))
  ∧ (∀ d' e, exec_fault d' = Some e ∨ rows_fault d' = Some e →
             ∃ e' msg, (savePendingBlock d' b).1 = Some (errors_Wrap e' msg)
                       ∧ errors_Wrap e' msg ≠ errDuplicateBlock).
Proof.
  intros Hexec Hrows. split_and!.
  - unfold savePendingBlock, upsertPending. rewrite Hexec.
    destruct (pending d) as [r|] eqn:Hslot; simpl; rewrite Hrows; simpl.
    + case_bool_decide as Hlt; simpl.
      * split; [|done]. intros _. right. by exists r.
      * split; [by intros [? _]|]. intros [?|(r' & ? & ?)]; simplify_eq. lia.
    + split; [|done]. intros _. by left.
  - intros r Hslot Hge. unfold savePendingBlock, upsertPending.
    rewrite Hexec, Hslot. rewrite bool_decide_eq_false_2 by lia. simpl.
    rewrite Hrows. simpl. f_equal. destruct d; simpl in *. by subst.
  - intros d' e Hfault. unfold savePendingBlock.
    destruct (exec_fault d') as [e1|] eqn:Hexec'.
    + by exists e1, "generator_pending_block insert query".
    + destruct Hfault as [?|Hrows']; [done|].
      destruct (upsertPending _ _ _) as [slot affected]. simpl.
      rewrite Hrows'.
      by exists e, "generator_pending_block rows affected".
Qed.

(** ** Recovery or generation *)

Lemma pendingIsNext_reuseCondition pb latestBlock :
  pendingIsNext pb latestBlock = true ↔ reuseCondition pb latestBlock.
Proof.
  unfold pendingIsNext, reuseCondition. destruct pb as [b|].
  - destruct latestBlock as [latest|].
    + rewrite bool_decide_eq_true. split.
      * intros Hh. exists b. split; [done|]. right. by exists latest.
      * intros (b' & ? & [?|(latest' & ? & ?)]); by simplify_eq.
    + split; [|done]. intros _. exists b. split; [done|]. by left.
  - split; [done|]. by intros (b' & ? & _).
Qed.

Lemma MakeBlock_reuse sch time m b :
  getPendingBlock (db (gen m)) = (Some b, None) →
  pendingIsNext (Some b) (chain_State (chain (gen m))).1 = true →
  MakeBlock sch time m
  = bind (reusePending b (chain_State (chain (gen m))).2)
      (λ p, match p with
            | Return err hash => ret (err, hash)
            | Proceed b s =>
                commitBlock sch b s (chain_State (chain (gen m))).1
            end) m.
Proof.
  intros Hpb Hnext. unfold MakeBlock, prepareBlock, bind, getGen, ret. simpl.
  destruct (chain_State _) as [latestBlock latestSnapshot].
  rewrite Hpb. simpl in *. rewrite Hnext.
  destruct (reusePending _ _ _) as [[p|h] m']; [|done]. by destruct p.
Qed.

Lemma MakeBlock_fresh sch time m pb :
  getPendingBlock (db (gen m)) = (pb, None) →
  pendingIsNext pb (chain_State (chain (gen m))).1 = false →
  MakeBlock sch time m
  = bind (generateFresh time (chain_State (chain (gen m))).1
            (chain_State (chain (gen m))).2)
      (λ p, match p with
            | Return err hash => ret (err, hash)
            | Proceed b s =>
                commitBlock sch b s (chain_State (chain (gen m))).1
            end) m.
Proof.
  intros Hpb Hnext. unfold MakeBlock, prepareBlock, bind, getGen, ret. simpl.
  destruct (chain_State _) as [latestBlock latestSnapshot].
  rewrite Hpb. simpl in *.
  destruct pb as [b|]; [rewrite Hnext|];
    (destruct (generateFresh _ _ _ _) as [[p|h] m']; [by destruct p|done]).
Qed.

Lemma savePendingBlock_saved (d d' : DB) (b : Block) :
  savePendingBlock d b = (None, d') →
  pending d' = Some {| row_data := b; row_height := Some (Height b) |}.
Proof.
  unfold savePendingBlock, upsertPending.
  destruct (exec_fault d); [done|].
  destruct (pending d) as [r|]; simpl.
  - case_bool_decide; simpl; destruct (rows_fault d); simpl;
      intros; by simplify_eq/=.
  - destruct (rows_fault d); simpl; intros; by simplify_eq/=.
Qed.

(** C4 (amended): when the pending-block read succeeds, [MakeBlock]
    reuses the stored pending block exactly when a pending block exists
    and either there is no head block or its height is the head block's
    height plus one (in uint64 arithmetic). Then nothing is generated and
    the pool is untouched: the head snapshot is copied to a fresh address,
    the pending block is applied to the copy (a failure is fatal) and the
    very same block goes on to signing and commit. In every other case the
    pool is swapped out and a block is generated from the transactions
    taken out of it. *)
Theorem MakeBlock_reuse_or_generate sch time m pb :
  getPendingBlock (db (gen m)) = (pb, None) →
  let latestBlock := (chain_State (chain (gen m))).1 in
  let latestSnapshot := (chain_State (chain (gen m))).2 in
  (reuseCondition pb latestBlock →
   ∃ b m1,
     pb = Some b
     ∧ gen m1 = gen m
     ∧ trace m1
       = trace m ++ [EvCopySnapshot latestSnapshot (next m);
                     EvApplyBlock (next m) b]
     ∧ next m1 = S (next m)
     ∧ store m1 (next m)
       = (Snapshot_ApplyBlock (state_Copy (store m latestSnapshot))
            (legacy_MapBlock b)).1
     ∧ (∀ a, a ≠ next m → store m1 a = store m a)
     ∧ MakeBlock sch time m
       = match (Snapshot_ApplyBlock (state_Copy (store m latestSnapshot))
                  (legacy_MapBlock b)).2 with
         | Some e => (inr (Fatal e), m1)
         | None => commitBlock sch b (next m) latestBlock m1
         end)
  ∧ (¬ reuseCondition pb latestBlock →
     ∃ evs,
       trace (MakeBlock sch time m).2
       = trace m ++ EvSwapPool (pool (gen m))
                 :: EvGenerateBlock latestBlock time (pool (gen m)) :: evs
       ∧ pool (gen (MakeBlock sch time m).2) = []
       ∧ poolHashes (gen (MakeBlock sch time m).2) = ∅).
Proof.
  intros Hpb latestBlock latestSnapshot. split.
  - intros Hreuse. pose proof Hreuse as (b & -> & _).
    apply pendingIsNext_reuseCondition in Hreuse.
    rewrite (MakeBlock_reuse _ _ _ _ Hpb Hreuse).
    fold latestBlock latestSnapshot.
    unfold reusePending, bind, copySnapshot, applyBlock, ret, halt. simpl.
    exists b.
    exists {| gen := gen m;
              store :=
                <[next m :=
                    (Snapshot_ApplyBlock (state_Copy (store m latestSnapshot))
                       (legacy_MapBlock b)).1]>
                  (<[next m := state_Copy (store m latestSnapshot)]> (store m));
              next := S (next m);
              trace := trace m ++ [EvCopySnapshot latestSnapshot (next m);
                                   EvApplyBlock (next m) b] |}.
    rewrite fn_lookup_insert. simpl.
    split_and!; [done|done|done|done| | |].
    + by rewrite fn_lookup_insert.
    + intros a Ha. by rewrite !fn_lookup_insert_ne.
    + destruct (Snapshot_ApplyBlock _ _) as [snap [e|]]; simpl;
        by rewrite <-(assoc_L (++)).
  - intros Hreuse. rewrite <-pendingIsNext_reuseCondition in Hreuse.
    apply not_true_is_false in Hreuse.
    rewrite (MakeBlock_fresh _ _ _ _ Hpb Hreuse).
    fold latestBlock latestSnapshot.
    unfold generateFresh, bind, swapPool, GenerateBlock, savePending, ret.
    simpl. destruct (chain_GenerateBlock _ _ _ _ _) as [[b snap]|e]; simpl.
    2: { exists []. by rewrite <-(assoc_L (++)). }
    case_bool_decide; simpl.
    { exists []. by rewrite <-(assoc_L (++)). }
    destruct (savePendingBlock _ _) as [[e|] d]; simpl.
    { exists [EvSavePending b]. by rewrite <-!(assoc_L (++)). }
    match goal with
    | |- context [commitBlock sch b ?s latestBlock ?m0] =>
        destruct (commitBlock_frame sch b s latestBlock m0)
          as (evs & last & -> & _ & _ & _ & _ & -> & -> & _)
    end.
    simpl. exists (EvSavePending b :: evs ++ last).
    by rewrite <-!(assoc_L (++)).
Qed.

(** C5: when a block is generated (the pending block is not reused) and
    it has no transactions, [MakeBlock] returns its hash and no error; the
    cycle only swaps the pool and generates: nothing is saved to the
    pending slot, no signature is requested and nothing is committed. *)
Theorem MakeBlock_empty_block sch time m pb b snap :
  getPendingBlock (db (gen m)) = (pb, None) →
  ¬ reuseCondition pb (chain_State (chain (gen m))).1 →
  chain_GenerateBlock (chain (gen m)) (chain_State (chain (gen m))).1
    (store m (chain_State (chain (gen m))).2) time (pool (gen m))
    = inl (b, snap) →
  Transactions b = [] →
  ∃ m2,
    MakeBlock sch time m = (inl (None, Some (Bytes (Block_Hash b))), m2)
    ∧ trace m2
      = trace m ++ [EvSwapPool (pool (gen m));
                    EvGenerateBlock (chain_State (chain (gen m))).1 time
                      (pool (gen m))]
    ∧ db (gen m2) = db (gen m)
    ∧ chain (gen m2) = chain (gen m).
Proof.
  intros Hpb Hreuse Hgen Htxs.
  rewrite <-pendingIsNext_reuseCondition in Hreuse.
  apply not_true_is_false in Hreuse.
  rewrite (MakeBlock_fresh _ _ _ _ Hpb Hreuse).
  unfold generateFresh, bind, swapPool, GenerateBlock, ret. simpl.
  rewrite Hgen. simpl. rewrite Htxs. simpl.
  eexists. split_and!; [done| |done|done]. simpl.
  by rewrite <-(assoc_L (++)).
Qed.

(** C9: when a block is generated and it has transactions, the save to
    the pending slot is the third action of the cycle, after the pool swap
    and the generation and before anything else. If the save fails the
    cycle ends there with the wrapped error. Whenever a signature is
    requested, the save had succeeded, the pending slot holds the block,
    and the request is for that block's bytes. *)
Theorem MakeBlock_saves_before_signing sch time m pb b snap :
  getPendingBlock (db (gen m)) = (pb, None) →
  ¬ reuseCondition pb (chain_State (chain (gen m))).1 →
  chain_GenerateBlock (chain (gen m)) (chain_State (chain (gen m))).1
    (store m (chain_State (chain (gen m))).2) time (pool (gen m))
    = inl (b, snap) →
  Transactions b ≠ [] →
  ∃ evs,
    trace (MakeBlock sch time m).2
    = trace m ++ [EvSwapPool (pool (gen m));
                  EvGenerateBlock (chain_State (chain (gen m))).1 time
                    (pool (gen m));
                  EvSavePending b] ++ evs
    ∧ (∀ e, (savePendingBlock (db (gen m)) b).1 = Some e →
            evs = []
            ∧ (MakeBlock sch time m).1
              = inl (Some (errors_Wrap e "saving pending block"), None))
    ∧ (∀ i payload, EvSignRequest i payload ∈ evs →
         (savePendingBlock (db (gen m)) b).1 = None
         ∧ pending (db (gen (MakeBlock sch time m).2))
           = Some {| row_data := b; row_height := Some (Height b) |}
         ∧ MarshalText b = inl payload).
Proof.
  intros Hpb Hreuse Hgen Htxs.
  rewrite <-pendingIsNext_reuseCondition in Hreuse.
  apply not_true_is_false in Hreuse.
  rewrite (MakeBlock_fresh _ _ _ _ Hpb Hreuse).
  unfold generateFresh, bind, swapPool, GenerateBlock, savePending, ret.
  simpl. rewrite Hgen. simpl.
  rewrite bool_decide_eq_false_2
    by (intros Hlen; by apply length_zero_iff_nil in Hlen).
  simpl. destruct (savePendingBlock _ _) as [[e|] d] eqn:Hsave; simpl.
  { exists []. rewrite <-!(assoc_L (++)). split_and!; [done| |].
    - intros e' ?. by simplify_eq.
    - intros i payload Hin. by apply elem_of_nil in Hin. }
  match goal with
  | |- context [commitBlock sch b ?s ?prev ?m0] =>
      destruct (commitBlock_frame sch b s prev m0)
        as (evs & last & -> & Hevs & Hpay & Hlast & -> & _)
  end.
  simpl. exists (evs ++ last). rewrite <-!(assoc_L (++)).
  split_and!; [done|done|].
  intros i payload Hin. split_and!; [done|by eapply savePendingBlock_saved|].
  apply elem_of_app in Hin as [Hin|Hin]; [by eapply Hpay|].
  destruct Hlast as [->|[b' ->]]; [by apply elem_of_nil in Hin|].
  by apply list_elem_of_singleton in Hin.
Qed.

(** ** Signing: the special cases *)

(** C6: when the cycle reaches signing with no previous block and a block
    of height 1, signature collection returns no error at once, with the
    block and the machine unchanged (no request is issued and the witness
    is left as it was, empty for an unsigned block); the next and only
    further action of [MakeBlock] is the commit of that block, whose
    result it returns. *)
Theorem MakeBlock_initial_block sch time m m1 b s :
  prepareBlock time m = (inl (Proceed b s, None), m1) →
  Height b = 1 →
  getAndAddBlockSignatures sch b None m1 = (inl (None, b), m1)
  ∧ trace (MakeBlock sch time m).2 = trace m1 ++ [EvCommitAppliedBlock b s]
  ∧ (MakeBlock sch time m).1
    = inl match (chain_CommitAppliedBlock (chain (gen m1)) b
                   (store m1 s)).2 with
          | Some e => (Some (errors_Wrap e "commit"), None)
          | None => (None, Some (Bytes (Block_Hash b)))
          end
  ∧ (∃ evs, trace m1 = trace m ++ evs
            ∧ ∀ i payload, EvSignRequest i payload ∉ evs).
Proof.
  intros Hprep Hh.
  assert (getAndAddBlockSignatures sch b None m1 = (inl (None, b), m1)) as Hg.
  { unfold getAndAddBlockSignatures. by rewrite bool_decide_eq_true_2. }
  split; [done|].
  unfold MakeBlock, bind. rewrite Hprep. simpl. unfold commitBlock, bind.
  rewrite Hg. unfold CommitAppliedBlock, ret. simpl.
  destruct (prepareBlock_frame time m) as (_ & _ & evs & Htr & Hevs).
  rewrite Hprep in Htr. simpl in Htr.
  destruct (chain_CommitAppliedBlock _ _ _) as [c [e|]]; simpl;
    (split_and!; [done|done|]; exists evs; split; [done|];
     intros i payload Hin; rewrite Forall_forall in Hevs;
     by apply Hevs in Hin).
Qed.

(** C7: when the cycle reaches signing and fewer signers are configured
    than the quorum of the previous block's consensus program, signature
    collection returns [errTooFewSigners]; [MakeBlock] returns it wrapped
    by [commitBlock] (its root is [errTooFewSigners]) and does nothing
    after the preparation: no signature is requested, nothing is
    committed. *)
Theorem MakeBlock_too_few_signers sch time m m1 b s prev pubkeys quorum :
  prepareBlock time m = (inl (Proceed b s, Some prev), m1) →
  vmutil_ParseBlockMultiSigProgram (ConsensusProgram prev)
    = inl (pubkeys, quorum) →
  Z.of_nat (length (signers (gen m))) < quorum →
  getAndAddBlockSignatures sch b (Some prev) m1
    = (inl (Some errTooFewSigners, b), m1)
  ∧ MakeBlock sch time m
    = (inl (Some (errors_Wrap errTooFewSigners "sign"), None), m1)
  ∧ errors_Root (errors_Wrap errTooFewSigners "sign") = errTooFewSigners
  ∧ ∃ evs, trace m1 = trace m ++ evs
           ∧ (∀ i payload, EvSignRequest i payload ∉ evs)
           ∧ (∀ b' s', EvCommitAppliedBlock b' s' ∉ evs).
Proof.
  intros Hprep Hparse Hfew.
  destruct (prepareBlock_frame time m) as (Hss & _ & evs & Htr & Hevs).
  rewrite Hprep in Hss, Htr. simpl in Hss, Htr.
  assert (getAndAddBlockSignatures sch b (Some prev) m1
          = (inl (Some errTooFewSigners, b), m1)) as Hg.
  { unfold getAndAddBlockSignatures, bind, getGen, ret. rewrite Hparse.
    simpl. rewrite Hss. by rewrite bool_decide_eq_true_2. }
  split_and!; [done| |done|].
  - unfold MakeBlock, bind. rewrite Hprep. simpl. unfold commitBlock, bind.
    by rewrite Hg.
  - exists evs. rewrite Forall_forall in Hevs.
    split_and!; [done| |]; intros ? ? Hin; by apply Hevs in Hin.
Qed.

(** C8: the bytes sent to the signers are the marshalled block, the same
    for every request of a round; they do not depend on the witness; and
    two rounds over blocks that agree on everything but the witness (the
    same block signed again, a pending block recovered) send the same
    bytes, whatever the signers, the schedule and the machine. *)
Theorem signable_bytes_stable sch1 sch2 prev1 prev2 m1 m2 b1 b2 evs1 evs2 :
  Height b1 = Height b2 →
  Transactions b1 = Transactions b2 →
  ConsensusProgram b1 = ConsensusProgram b2 →
  trace (getAndAddBlockSignatures sch1 b1 prev1 m1).2 = trace m1 ++ evs1 →
  trace (getAndAddBlockSignatures sch2 b2 prev2 m2).2 = trace m2 ++ evs2 →
  (∀ w, MarshalText (setWitness b1 w) = MarshalText b1)
  ∧ ∀ i1 payload1 i2 payload2,
      EvSignRequest i1 payload1 ∈ evs1 →
      EvSignRequest i2 payload2 ∈ evs2 →
      payload1 = payload2 ∧ MarshalText b1 = inl payload1.
Proof.
  intros Hh Htx Hcp Htr1 Htr2. split; [done|].
  intros i1 payload1 i2 payload2 Hin1 Hin2.
  destruct (getAndAddBlockSignatures_frame sch1 b1 prev1 m1)
    as (evs1' & Hm1 & _ & Hpay1).
  destruct (getAndAddBlockSignatures_frame sch2 b2 prev2 m2)
    as (evs2' & Hm2 & _ & Hpay2).
  rewrite Hm1 in Htr1. rewrite Hm2 in Htr2. simpl in Htr1, Htr2.
  apply (inj (app _)) in Htr1, Htr2. subst evs1' evs2'.
  specialize (Hpay1 _ _ Hin1). specialize (Hpay2 _ _ Hin2).
  assert (MarshalText b2 = MarshalText b1) as Heq.
  { unfold MarshalText. by rewrite Hh, Htx, Hcp. }
  rewrite Heq in Hpay2. split; [congruence|done].
Qed.

(** ** Signatures for a slot already filled *)

(** C10: while the quorum is not reached, a reply whose signature is
    matched to a key (the first key, in key-set order, that verifies it)
    whose slot is already filled changes neither the slots nor the count;
    it adds no invalid-signature log (only what the signer's own call
    logged); and collection goes on with the remaining replies from the
    same state. A signature that no key verifies is logged as invalid. *)
Theorem duplicate_signature_discarded pubkeys quorum b hashForSig sch mb ss
    n i arr st sig k held :
  nready st < quorum →
  signatureOf ss mb i = Some sig →
  firstMatch pubkeys (Bytes hashForSig) sig k →
  goodSigs st !! k = Some (Some held) →
  let reply := replyOf (launch sch mb ss) i in
  let st' := collectReply pubkeys b hashForSig st reply in
  goodSigs st' = goodSigs st
  ∧ nready st' = nready st
  ∧ nonNilSigs (goodSigs st') = nonNilSigs (goodSigs st)
  ∧ logged st' = logged st ++ reply.2
  ∧ (∀ h sig', EvLogInvalidSignature h sig' ∉ reply.2)
  ∧ collect pubkeys quorum b hashForSig (launch sch mb ss) (S n) (i :: arr) st
    = collect pubkeys quorum b hashForSig (launch sch mb ss) n arr st'
  ∧ ∀ st0 reply0 sig0,
      reply0.1 = Some sig0 →
      indexKey pubkeys (Bytes hashForSig) sig0 = -1 →
      logged (collectReply pubkeys b hashForSig st0 reply0)
      = logged st0 ++ reply0.2
          ++ [EvLogInvalidSignature (Block_Hash b) sig0].
Proof.
  intros Hq Hsig Hf Hheld reply st'.
  assert (reply.1 = Some sig) as Hr.
  { rewrite <-Hsig, <-(sigOf_launch sch). done. }
  assert (goodSigs st' = goodSigs st ∧ nready st' = nready st
          ∧ logged st' = logged st ++ reply.2) as (Hg & Hn & Hl).
  { destruct (collectReply_cases pubkeys b hashForSig st reply)
      as [(Hnone & _)
         |[(sig' & k' & Hr' & Hf' & [(Hslot & _)|(_ & ? & ? & ?)])
          |(sig' & Hr' & Hk & _)]]; fold st'.
    - congruence.
    - assert (sig' = sig) as -> by congruence.
      rewrite (firstMatch_unique _ _ _ _ _ Hf' Hf) in Hslot. congruence.
    - done.
    - assert (sig' = sig) as -> by congruence.
      apply indexKey_firstMatch in Hf. lia. }
  split_and!; [done|done|by rewrite Hg|done| | |].
  - intros h sig' Hin.
    pose proof (replyOf_launch_logs sch mb ss i) as Hlogs.
    fold reply in Hlogs. rewrite Forall_forall in Hlogs.
    apply Hlogs in Hin as Hlog.
    unfold reply in Hin. rewrite replyOf_launch in Hin.
    destruct (ss !! i) as [signer|]; [|by apply elem_of_nil in Hin].
    unfold getSig in Hin. destruct (SignBlock signer mb) as [? [e|]];
      simpl in Hin; [|by apply elem_of_nil in Hin].
    destruct (ctxCanceled sch); [by apply elem_of_nil in Hin|].
    by apply list_elem_of_singleton in Hin.
  - simpl. by rewrite bool_decide_eq_true_2.
  - intros st0 reply0 sig0 Hr0 Hk0.
    destruct (collectReply_cases pubkeys b hashForSig st0 reply0)
      as [(Hnone & _)
         |[(sig' & k' & Hr' & Hf' & _)
          |(sig' & Hr' & _ & _ & _ & ->)]].
    + congruence.
    + assert (sig' = sig0) as -> by congruence.
      apply indexKey_firstMatch in Hf'. lia.
    + by assert (sig' = sig0) as -> by congruence.
Qed.

(** ** Further properties of matching and collection *)

(** X1: [indexKey] returns -1 or a position of the key set; it returns -1
    exactly when no key verifies the signature, and a position exactly
    when that key is the first, in key-set order, that verifies it. *)
Theorem indexKey_first_verifying_key keys msg sig :
  -1 ≤ indexKey keys msg sig < Z.of_nat (length keys)
  ∧ (indexKey keys msg sig = -1
     ↔ ∀ key, key ∈ keys → ed25519_Verify key msg sig = false)
  ∧ ∀ k, indexKey keys msg sig = Z.of_nat k
         ↔ ∃ key, keys !! k = Some key
                  ∧ ed25519_Verify key msg sig = true
                  ∧ ∀ j key', (j < k)%nat → keys !! j = Some key'
                              → ed25519_Verify key' msg sig = false.
Proof.
  split; [apply indexKey_range|]. split; [|apply indexKey_firstMatch].
  unfold indexKey.
  destruct (indexKey_from_cases 0 keys msg sig)
    as [[Hm Hnone]|(k & Hk & key & Hl & Hv & _)].
  - split; [|done]. intros _ key Hin.
    apply list_elem_of_lookup in Hin as [j Hj]. eauto.
  - split; [lia|]. intros Hnone.
    rewrite Hnone in Hv; [done|]. by eapply list_elem_of_lookup_2.
Qed.

(** X2: [nonNilSigs] keeps exactly the non-nil entries, in their order:
    its result, read as non-nil entries, is a sublist of the input; it is
    no longer than the input; and it is empty exactly when every entry is
    nil. *)
Theorem nonNilSigs_keeps_non_nil (a : list (option bytes)) :
  (∀ sig, sig ∈ nonNilSigs a ↔ Some sig ∈ a)
  ∧ (Some <$> nonNilSigs a) `sublist_of` a
  ∧ (length (nonNilSigs a) ≤ length a)%nat
  ∧ (nonNilSigs a = [] ↔ ∀ p, p ∈ a → p = None).
Proof.
  induction a as [|[sig|] rest (IHin & IHsub & IHlen & IHnil)]; simpl.
  - split_and!; [|done|done|].
    + intros sig. by rewrite !elem_of_nil.
    + split; [|done]. intros _ p Hp. by apply elem_of_nil in Hp.
  - split_and!.
    + intros sig'. rewrite !elem_of_cons, IHin.
      split; (intros [?|?]; [left; congruence|by right]).
    + by apply sublist_skip.
    + lia.
    + split; [done|]. intros Hall.
      specialize (Hall (Some sig) ltac:(by left)). done.
  - split_and!.
    + intros sig'. rewrite elem_of_cons, IHin.
      split; [by right|]. by intros [?|?].
    + by apply sublist_cons.
    + lia.
    + rewrite IHnil. split.
      * intros Hall p Hp. apply elem_of_cons in Hp as [->|Hp]; auto.
      * intros Hall p Hp. apply Hall. by right.
Qed.

(** X3: when a key occurs twice in the key set, no signature is ever
    matched to its later position, and collection never fills that slot:
    whatever the signers return and in whatever order, the slot is nil
    when the loop stops. *)
Theorem repeated_key_slot_stays_empty pubkeys quorum b hashForSig launched
    n arr i j key :
  pubkeys !! i = Some key → pubkeys !! j = Some key → (i < j)%nat →
  (∀ msg sig, indexKey pubkeys msg sig ≠ Z.of_nat j)
  ∧ goodSigs (collect pubkeys quorum b hashForSig launched n arr
                (emptyCollected pubkeys)).2 !! j = Some None.
Proof.
  intros Hi Hj Hlt.
  assert (∀ msg sig, ¬ firstMatch pubkeys msg sig j) as Hno.
  { intros msg sig (key' & Hl & Hv & Hmin).
    assert (key' = key) as -> by congruence.
    specialize (Hmin _ _ Hlt Hi). congruence. }
  split.
  { intros msg sig Hk. by apply indexKey_firstMatch, Hno in Hk. }
  destruct (collect_spec pubkeys quorum b hashForSig launched n arr
              (emptyCollected pubkeys) [] (Inv_init _ _ _))
    as (pre & rest & _ & _ & HInv & _).
  pose proof (inv_length _ _ _ _ _ HInv) as Hlen.
  apply lookup_lt_Some in Hj. rewrite <-Hlen in Hj.
  apply lookup_lt_is_Some in Hj as [[sig|] Hslot]; [|done].
  destruct (inv_sound _ _ _ _ _ HInv _ _ Hslot) as [Hf _].
  by apply Hno in Hf.
Qed.

(** X4: replies that arrive after the loop has stopped are ignored: when
    the loop returns on the completions [pre], it returns the same on
    [pre] followed by any further completions. *)
Theorem late_replies_are_ignored pubkeys quorum b hashForSig launched n
    pre rest st :
  (collect pubkeys quorum b hashForSig launched n pre st).1 = None →
  collect pubkeys quorum b hashForSig launched n (pre ++ rest) st
  = collect pubkeys quorum b hashForSig launched n pre st.
Proof.
  revert pre st. induction n as [|n IH]; intros pre st; simpl; [done|].
  case_bool_decide; [|done].
  destruct pre as [|i pre]; simpl; [done|]. apply IH.
Qed.

(** ** Further properties of signing *)

Lemma collect_done pubkeys quorum b hashForSig launched n arr st :
  quorum ≤ nready st →
  collect pubkeys quorum b hashForSig launched n arr st = (None, st).
Proof.
  intros Hq. destruct n; simpl; [done|].
  by rewrite bool_decide_eq_false_2 by lia.
Qed.

Lemma signRequests_seq mb (ss : list BlockSigner) :
  signRequests mb ss = (λ i, EvSignRequest i mb) <$> seq 0 (length ss).
Proof.
  apply list_eq. intros j. unfold signRequests.
  rewrite list_lookup_imap, list_lookup_fmap.
  destruct (ss !! j) as [signer|] eqn:Hj; simpl.
  - apply lookup_lt_Some in Hj. by rewrite lookup_seq_lt.
  - apply lookup_ge_None in Hj. by rewrite lookup_seq_ge.
Qed.

(** How collection ends once the previous block's program has parsed. *)
Lemma getAndAddBlockSignatures_parsed sch b prev pubkeys quorum m :
  vmutil_ParseBlockMultiSigProgram (ConsensusProgram prev)
    = inl (pubkeys, quorum) →
  (Z.of_nat (length (signers (gen m))) < quorum
   ∧ getAndAddBlockSignatures sch b (Some prev) m
     = (inl (Some errTooFewSigners, b), m))
  ∨ (quorum ≤ Z.of_nat (length (signers (gen m)))
     ∧ ∃ e, MarshalText b = inr e
            ∧ getAndAddBlockSignatures sch b (Some prev) m
              = (inl (Some (errors_Wrap e "marshalling block"), b), m))
  ∨ (quorum ≤ Z.of_nat (length (signers (gen m)))
     ∧ ∃ mb, MarshalText b = inl mb).
Proof.
  intros Hp.
  destruct (decide (Z.of_nat (length (signers (gen m))) < quorum)) as [Hlt|Hge].
  { left. split; [done|].
    unfold getAndAddBlockSignatures, bind, getGen, ret. rewrite Hp. simpl.
    by rewrite bool_decide_eq_true_2. }
  right. destruct (MarshalText b) as [mb|e] eqn:Hmb.
  - right. split; [lia|]. by exists mb.
  - left. split; [lia|]. exists e. split; [done|].
    unfold getAndAddBlockSignatures, bind, getGen, ret. rewrite Hp. simpl.
    rewrite bool_decide_eq_false_2 by done. by rewrite Hmb.
Qed.

(** X5: signature collection changes nothing of the block but its
    witness, and not even that when it returns an error; it leaves the
    generator and the snapshots as they were. *)
Theorem signing_changes_only_the_witness sch b prevBlock m err b' m' :
  getAndAddBlockSignatures sch b prevBlock m = (inl (err, b'), m') →
  Height b' = Height b
  ∧ Transactions b' = Transactions b
  ∧ ConsensusProgram b' = ConsensusProgram b
  ∧ (∀ e, err = Some e → b' = b)
  ∧ gen m' = gen m ∧ store m' = store m ∧ next m' = next m.
Proof.
  intros Hrun. destruct prevBlock as [prev|].
  2: { unfold getAndAddBlockSignatures, ret, halt in Hrun.
       case_bool_decide; by simplify_eq. }
  destruct (vmutil_ParseBlockMultiSigProgram (ConsensusProgram prev))
    as [[pubkeys quorum]|e] eqn:Hp.
  2: { unfold getAndAddBlockSignatures, ret in Hrun. rewrite Hp in Hrun.
       by simplify_eq. }
  destruct (getAndAddBlockSignatures_parsed sch b prev pubkeys quorum m Hp)
    as [[_ Heq]|[(_ & e & _ & Heq)|(Hn & mb & Hmb)]].
  - rewrite Heq in Hrun. by simplify_eq.
  - rewrite Heq in Hrun. by simplify_eq.
  - rewrite (getAndAddBlockSignatures_collect _ _ _ _ _ _ _ Hp Hn Hmb)
      in Hrun. cbv zeta in Hrun.
    destruct (collect _ _ _ _ _ _ _ _).1; [by simplify_eq|].
    case_bool_decide; by simplify_eq.
Qed.

(** X6: whenever signature collection succeeds against a previous block,
    whatever the schedule, the witness it assigns has exactly [quorum]
    signatures (none when the quorum is not positive), listed by
    increasing key position, each verifying under the key at its position
    over the block's hash and each returned by a signer whose completion
    arrived. *)
Theorem signed_witness_is_sound sch b prev pubkeys quorum m b' m' :
  vmutil_ParseBlockMultiSigProgram (ConsensusProgram prev)
    = inl (pubkeys, quorum) →
  getAndAddBlockSignatures sch b (Some prev) m = (inl (None, b'), m') →
  length (Witness b') = Z.to_nat quorum
  ∧ ∃ slots,
      StronglySorted lt slots
      ∧ Forall2 (λ k sig,
                   (∃ key, pubkeys !! k = Some key
                           ∧ ed25519_Verify key (Bytes (Block_Hash b)) sig
                             = true)
                   ∧ ∃ i mb, i ∈ arrivals sch
                             ∧ MarshalText b = inl mb
                             ∧ signatureOf (signers (gen m)) mb i = Some sig)
          slots (Witness b').
Proof.
  intros Hp Hrun.
  destruct (getAndAddBlockSignatures_parsed sch b prev pubkeys quorum m Hp)
    as [[_ Heq]|[(_ & e & _ & Heq)|(Hn & mb & Hmb)]].
  { rewrite Heq in Hrun. by simplify_eq. }
  { rewrite Heq in Hrun. by simplify_eq. }
  rewrite (getAndAddBlockSignatures_collect _ _ _ _ _ _ _ Hp Hn Hmb) in Hrun.
  cbv zeta in Hrun.
  destruct (collect_spec pubkeys quorum b (Block_Hash b)
              (launch sch mb (signers (gen m))) (length (signers (gen m)))
              (arrivals sch) (emptyCollected pubkeys) [] (Inv_init _ _ _))
    as (pre & rest & Harr & _ & HInv & Hle & _).
  simpl in HInv, Hle.
  pose proof (collect_done pubkeys quorum b (Block_Hash b)
                (launch sch mb (signers (gen m))) (length (signers (gen m)))
                (arrivals sch) (emptyCollected pubkeys)) as Hdone.
  simpl in Hdone.
  destruct (collect _ _ _ _ _ _ _ _) as [[h|] st]; simpl in *;
    [by simplify_eq|].
  case_bool_decide as Hq; [by simplify_eq|]. simplify_eq. simpl.
  split.
  - destruct (decide (0 ≤ quorum)) as [Hpos|Hneg].
    + specialize (Hle Hpos). apply Nat2Z.inj.
      rewrite <-(inv_count _ _ _ _ _ HInv). lia.
    + specialize (Hdone ltac:(lia)). simplify_eq. simpl.
      rewrite nonNilSigs_replicate. simpl. lia.
  - destruct (Inv_witness _ _ _ _ _ HInv) as (slots & Hsorted & Hall).
    exists slots. split; [done|].
    eapply Forall2_impl; [exact Hall|]. simpl.
    intros k sig [(key & Hl & Hv & _) (i & Hi & Hs)].
    split; [by eauto|]. exists i, mb. rewrite sigOf_launch in Hs.
    split_and!; [|done|done]. rewrite Harr. apply elem_of_app. by left.
Qed.

(** X7: when the quorum of the previous block's program is not positive,
    every configured signer is still sent the block, but no reply is
    awaited: collection succeeds at once with an empty witness, and
    nothing is logged. *)
Theorem zero_quorum_awaits_no_reply sch b prev pubkeys quorum mb m :
  vmutil_ParseBlockMultiSigProgram (ConsensusProgram prev)
    = inl (pubkeys, quorum) →
  quorum ≤ 0 →
  MarshalText b = inl mb →
  getAndAddBlockSignatures sch b (Some prev) m
  = (inl (None, setWitness b []),
     addTrace m ((λ i, EvSignRequest i mb)
                   <$> seq 0 (length (signers (gen m))))).
Proof.
  intros Hp Hq Hmb.
  rewrite (getAndAddBlockSignatures_collect _ _ _ _ _ _ _ Hp ltac:(lia) Hmb).
  cbv zeta. rewrite collect_done by (simpl; lia). simpl.
  rewrite bool_decide_eq_false_2 by lia.
  by rewrite nonNilSigs_replicate, app_nil_r, signRequests_seq.
Qed.

(** X8: when collection runs, every configured signer is sent the
    marshalled block exactly once, in the order of configuration and
    before any reply is processed; all that follows in the round is
    logging. *)
Theorem every_signer_is_asked_once sch b prev pubkeys quorum mb m :
  vmutil_ParseBlockMultiSigProgram (ConsensusProgram prev)
    = inl (pubkeys, quorum) →
  quorum ≤ Z.of_nat (length (signers (gen m))) →
  MarshalText b = inl mb →
  ∃ logs,
    trace (getAndAddBlockSignatures sch b (Some prev) m).2
    = trace m
        ++ ((λ i, EvSignRequest i mb) <$> seq 0 (length (signers (gen m))))
        ++ logs
    ∧ Forall logEvent logs.
Proof.
  intros Hp Hn Hmb.
  rewrite (getAndAddBlockSignatures_collect _ _ _ _ _ _ _ Hp Hn Hmb).
  cbv zeta. simpl. eexists. rewrite signRequests_seq. split; [done|].
  apply collect_logs. constructor.
Qed.

(** X9: a signer is contacted only when there is a previous block whose
    program parses, at least as many signers are configured as its quorum
    and the block marshals; the request then carries the marshalled block
    and goes to a configured signer. *)
Theorem signers_contacted_only_when_ready sch b prevBlock m evs i payload :
  trace (getAndAddBlockSignatures sch b prevBlock m).2 = trace m ++ evs →
  EvSignRequest i payload ∈ evs →
  ∃ prev pubkeys quorum,
    prevBlock = Some prev
    ∧ vmutil_ParseBlockMultiSigProgram (ConsensusProgram prev)
      = inl (pubkeys, quorum)
    ∧ quorum ≤ Z.of_nat (length (signers (gen m)))
    ∧ MarshalText b = inl payload
    ∧ (i < length (signers (gen m)))%nat.
Proof.
  intros Htr Hin.
  assert (∀ r : (option error * Block) + Halt,
    getAndAddBlockSignatures sch b prevBlock m = (r, m) → False) as Hsame.
  { intros r Heq. rewrite Heq in Htr. simpl in Htr.
    rewrite <-(app_nil_r (trace m)) in Htr at 1.
    apply (inj (app _)) in Htr. subst evs. by apply elem_of_nil in Hin. }
  destruct prevBlock as [prev|].
  2: { exfalso. unfold getAndAddBlockSignatures, ret, halt in Hsame.
       case_bool_decide; by eapply Hsame. }
  destruct (vmutil_ParseBlockMultiSigProgram (ConsensusProgram prev))
    as [[pubkeys quorum]|e] eqn:Hp.
  2: { exfalso. unfold getAndAddBlockSignatures, ret in Hsame.
       rewrite Hp in Hsame. by eapply Hsame. }
  destruct (getAndAddBlockSignatures_parsed sch b prev pubkeys quorum m Hp)
    as [[_ Heq]|[(_ & e & _ & Heq)|(Hn & mb & Hmb)]].
  { exfalso. by eapply Hsame. }
  { exfalso. by eapply Hsame. }
  rewrite (getAndAddBlockSignatures_collect _ _ _ _ _ _ _ Hp Hn Hmb) in Htr.
  cbv zeta in Htr. simpl in Htr. apply (inj (app _)) in Htr. subst evs.
  exists prev, pubkeys, quorum. split_and!; [done|done|done| |].
  - apply elem_of_app in Hin as [Hin|Hin].
    + by rewrite (signRequests_payload _ _ _ _ Hin).
    + pose proof (collect_logs pubkeys quorum b (Block_Hash b) sch mb
                    (signers (gen m)) (length (signers (gen m)))
                    (arrivals sch) (emptyCollected pubkeys)
                    (Forall_nil_2 _)) as Hlogs.
      rewrite Forall_forall in Hlogs. by apply Hlogs in Hin.
  - apply elem_of_app in Hin as [Hin|Hin].
    + rewrite signRequests_seq in Hin.
      apply list_elem_of_fmap in Hin as (j & Hj & Hin). simplify_eq.
      apply elem_of_seq in Hin. lia.
    + pose proof (collect_logs pubkeys quorum b (Block_Hash b) sch mb
                    (signers (gen m)) (length (signers (gen m)))
                    (arrivals sch) (emptyCollected pubkeys)
                    (Forall_nil_2 _)) as Hlogs.
      rewrite Forall_forall in Hlogs. by apply Hlogs in Hin.
Qed.

(** ** Further properties of the pending slot *)

Lemma savePendingBlock_faults (d : DB) (b : Block) :
  query_fault (savePendingBlock d b).2 = query_fault d
  ∧ exec_fault (savePendingBlock d b).2 = exec_fault d
  ∧ rows_fault (savePendingBlock d b).2 = rows_fault d.
Proof.
  unfold savePendingBlock. destruct (exec_fault d) eqn:Hexec; [done|].
  destruct (upsertPending _ _ _) as [slot affected]. simpl.
  destruct (rows_fault d) eqn:Hrows; [|case_bool_decide]; simpl;
    by rewrite ?Hexec, ?Hrows.
Qed.

Lemma savePendingBlock_conflict (d : DB) (b : Block) r :
  exec_fault d = None → rows_fault d = None →
  pending d = Some r → Height b ≤ coalesceHeight r →
  savePendingBlock d b = (Some errDuplicateBlock, d).
Proof.
  intros Hexec Hrows Hslot Hge. unfold savePendingBlock, upsertPending.
  rewrite Hexec, Hslot. rewrite bool_decide_eq_false_2 by lia. simpl.
  rewrite Hrows. simpl. f_equal. destruct d; simpl in *. by subst.
Qed.

(** X10: a block that [savePendingBlock] has saved is the block that
    [getPendingBlock] reads back from the database it leaves (when the
    query itself does not fail). *)
Theorem saved_block_is_read_back (d : DB) (b : Block) :
  (savePendingBlock d b).1 = None →
  query_fault d = None →
  getPendingBlock (savePendingBlock d b).2 = (Some b, None).
Proof.
  intros Hok Hquery.
  destruct (savePendingBlock d b) as [err d'] eqn:Hsave. simpl in *.
  subst err. pose proof (savePendingBlock_saved _ _ _ Hsave) as Hslot.
  destruct (savePendingBlock_faults d b) as (Hq & _). rewrite Hsave in Hq.
  simpl in Hq. unfold getPendingBlock, db_QueryRow_Scan.
  by rewrite Hq, Hquery, Hslot.
Qed.

(** X11: whatever it returns, [savePendingBlock] never empties a filled
    slot and never lowers the stored height: afterwards the slot holds
    the old row or the row of the new block, at a height at least the old
    one. *)
Theorem pending_height_never_decreases (d : DB) (b : Block) r :
  pending d = Some r →
  ∃ r', pending (savePendingBlock d b).2 = Some r'
        ∧ coalesceHeight r ≤ coalesceHeight r'
        ∧ (r' = r ∨ r' = {| row_data := b; row_height := Some (Height b) |}).
Proof.
  intros Hslot. unfold savePendingBlock, upsertPending.
  destruct (exec_fault d).
  { exists r. split_and!; [done|lia|by left]. }
  rewrite Hslot. case_bool_decide as Hlt; simpl.
  - exists {| row_data := b; row_height := Some (Height b) |}.
    split_and!; [|unfold coalesceHeight at 2; simpl; lia|by right].
    destruct (rows_fault d); [done|]. by try case_bool_decide.
  - exists r. split_and!; [|lia|by left].
    destruct (rows_fault d); [done|]. by try case_bool_decide.
Qed.

(** X12: on a database that answers, saving the same block a second time
    is refused with [errDuplicateBlock] and changes nothing, whether the
    first save was accepted or refused. *)
Theorem second_save_is_refused (d : DB) (b : Block) :
  exec_fault d = None → rows_fault d = None →
  savePendingBlock (savePendingBlock d b).2 b
  = (Some errDuplicateBlock, (savePendingBlock d b).2).
Proof.
  intros Hexec Hrows.
  destruct (savePendingBlock_faults d b) as (_ & Hexec' & Hrows').
  rewrite Hexec in Hexec'. rewrite Hrows in Hrows'.
  assert (∃ r, pending (savePendingBlock d b).2 = Some r
               ∧ Height b ≤ coalesceHeight r) as (r & Hslot & Hge).
  { unfold savePendingBlock, upsertPending. rewrite Hexec.
    destruct (pending d) as [r|] eqn:Hslot; simpl; rewrite Hrows; simpl.
    - case_bool_decide as Hlt; simpl.
      + eexists. split; [done|]. unfold coalesceHeight. simpl. lia.
      + exists r. split; [done|]. lia.
    - eexists. split; [done|]. unfold coalesceHeight. simpl. lia. }
  by eapply savePendingBlock_conflict.
Qed.

(** ** Further properties of the cycle *)

(** What [commitBlock] returns: the hash and no error, or an error
    wrapped with "sign" or "commit" and no hash; after a "sign" error the
    generator is as it was. *)
Lemma commitBlock_result sch b s prevBlock m err hash :
  (commitBlock sch b s prevBlock m).1 = inl (err, hash) →
  (err = None ∧ ∃ h, hash = Some h)
  ∨ (hash = None
     ∧ ((∃ e, err = Some (errors_Wrap e "sign")
              ∧ gen (commitBlock sch b s prevBlock m).2 = gen m)
        ∨ ∃ e, err = Some (errors_Wrap e "commit"))).
Proof.
  destruct (getAndAddBlockSignatures_frame sch b prevBlock m)
    as (evs & Hm & _).
  unfold commitBlock, bind.
  destruct (getAndAddBlockSignatures sch b prevBlock m)
    as [[[[e|] b']|h] m'] eqn:Hrun; simpl in Hm; subst m'; simpl.
  - intros ?. simplify_eq. right. split; [done|]. left. by exists e.
  - unfold CommitAppliedBlock, ret. simpl.
    destruct (chain_CommitAppliedBlock _ _ _) as [c [e|]]; simpl;
      intros ?; simplify_eq.
    + right. split; [done|]. right. by exists e.
    + left. split; [done|]. by eexists.
  - done.
Qed.

(** [commitBlock] leaves the snapshot objects alone. *)
Lemma commitBlock_store sch b s prevBlock m :
  store (commitBlock sch b s prevBlock m).2 = store m
  ∧ next (commitBlock sch b s prevBlock m).2 = next m.
Proof.
  destruct (getAndAddBlockSignatures_frame sch b prevBlock m)
    as (evs & Hm & _).
  unfold commitBlock, bind.
  destruct (getAndAddBlockSignatures sch b prevBlock m)
    as [[[[e|] b']|h] m'] eqn:Hrun; simpl in Hm; subst m'; simpl; [done| |done].
  unfold CommitAppliedBlock, ret. simpl.
  by destruct (chain_CommitAppliedBlock _ _ _) as [c [e|]].
Qed.

(** X13: when [MakeBlock] returns, it returns either a hash and no error
    or an error and no hash, never both and never neither; the error is
    always a wrapped one, its context naming the step that failed. *)
Theorem MakeBlock_returns_hash_or_error sch time m err hash :
  (MakeBlock sch time m).1 = inl (err, hash) →
  (err = None ∧ ∃ h, hash = Some h)
  ∨ (hash = None
     ∧ ∃ e context,
         err = Some (errors_Wrap e context)
         ∧ context ∈ ["retrieving the pending block"; "generate";
                      "saving pending block"; "sign"; "commit"]).
Proof.
  assert (∀ b s prevBlock m0,
    (commitBlock sch b s prevBlock m0).1 = inl (err, hash) →
    (err = None ∧ ∃ h, hash = Some h)
    ∨ (hash = None
       ∧ ∃ e context,
           err = Some (errors_Wrap e context)
           ∧ context ∈ ["retrieving the pending block"; "generate";
                        "saving pending block"; "sign"; "commit"]))
    as Hcommit.
  { intros b s prevBlock m0 Hrun.
    destruct (commitBlock_result _ _ _ _ _ _ _ Hrun)
      as [?|(-> & [(e & -> & _)|(e & ->)])]; [by left| |];
      right; (split; [done|]); eexists _, _; (split; [done|]);
      rewrite !elem_of_cons; auto 10. }
  destruct (getPendingBlock (db (gen m))) as [pb [e|]] eqn:Hpb.
  { unfold MakeBlock, prepareBlock, bind, getGen, ret. simpl.
    destruct (chain_State _) as [latestBlock latestSnapshot].
    rewrite Hpb. simpl. intros ?. simplify_eq. right. split; [done|].
    eexists _, _. split; [done|]. by left. }
  destruct (pendingIsNext pb (chain_State (chain (gen m))).1) eqn:Hnext.
  - destruct pb as [pb|]; [|done].
    rewrite (MakeBlock_reuse _ _ _ _ Hpb Hnext).
    unfold reusePending, bind, copySnapshot, applyBlock, ret, halt. simpl.
    destruct (Snapshot_ApplyBlock _ _) as [snap [e|]]; simpl; [done|].
    apply Hcommit.
  - rewrite (MakeBlock_fresh _ _ _ _ Hpb Hnext).
    unfold generateFresh, bind, swapPool, GenerateBlock, savePending, ret.
    simpl. destruct (chain_GenerateBlock _ _ _ _ _) as [[b s]|e]; simpl.
    2: { intros ?. simplify_eq. right. split; [done|]. eexists _, _.
         split; [done|]. rewrite !elem_of_cons. auto. }
    case_bool_decide; simpl.
    { intros ?. simplify_eq. left. split; [done|]. by eexists. }
    destruct (savePendingBlock _ _) as [[e|] d]; simpl.
    { intros ?. simplify_eq. right. split; [done|]. eexists _, _.
      split; [done|]. rewrite !elem_of_cons. auto. }
    apply Hcommit.
Qed.

(** X14: [MakeBlock] never writes to a snapshot object that existed
    before the cycle, the head snapshot in particular: it only allocates,
    and the block is applied to the copy. *)
Theorem MakeBlock_keeps_existing_snapshots sch time m a :
  (a < next m)%nat →
  store (MakeBlock sch time m).2 a = store m a
  ∧ (next m ≤ next (MakeBlock sch time m).2)%nat.
Proof.
  intros Ha.
  assert (∀ b s prevBlock m0,
    store m0 a = store m a → (next m ≤ next m0)%nat →
    store (commitBlock sch b s prevBlock m0).2 a = store m a
    ∧ (next m ≤ next (commitBlock sch b s prevBlock m0).2)%nat) as Hcommit.
  { intros b s prevBlock m0 Hst Hnx.
    destruct (commitBlock_store sch b s prevBlock m0) as [-> ->]. done. }
  destruct (getPendingBlock (db (gen m))) as [pb [e|]] eqn:Hpb.
  { unfold MakeBlock, prepareBlock, bind, getGen, ret. simpl.
    destruct (chain_State _) as [latestBlock latestSnapshot].
    by rewrite Hpb. }
  destruct (pendingIsNext pb (chain_State (chain (gen m))).1) eqn:Hnext.
  - destruct pb as [pb|]; [|done].
    rewrite (MakeBlock_reuse _ _ _ _ Hpb Hnext).
    unfold reusePending, bind, copySnapshot, applyBlock, ret, halt. simpl.
    destruct (Snapshot_ApplyBlock _ _) as [snap [e|]]; simpl.
    { rewrite !fn_lookup_insert_ne by lia. split; [done|lia]. }
    apply Hcommit; simpl; [by rewrite !fn_lookup_insert_ne by lia|lia].
  - rewrite (MakeBlock_fresh _ _ _ _ Hpb Hnext).
    unfold generateFresh, bind, swapPool, GenerateBlock, savePending, ret.
    simpl. destruct (chain_GenerateBlock _ _ _ _ _) as [[b s]|e]; simpl;
      [|done].
    case_bool_decide; simpl.
    { rewrite fn_lookup_insert_ne by lia. split; [done|lia]. }
    destruct (savePendingBlock _ _) as [[e|] d]; simpl.
    { rewrite fn_lookup_insert_ne by lia. split; [done|lia]. }
    apply Hcommit; simpl; [by rewrite fn_lookup_insert_ne by lia|lia].
Qed.

(** The cycle on the reuse branch: copy, apply, then sign and commit the
    pending block itself. *)
Lemma MakeBlock_reuse_run sch time m b :
  getPendingBlock (db (gen m)) = (Some b, None) →
  pendingIsNext (Some b) (chain_State (chain (gen m))).1 = true →
  ∃ m1,
    gen m1 = gen m
    ∧ trace m1
      = trace m ++ [EvCopySnapshot (chain_State (chain (gen m))).2 (next m);
                    EvApplyBlock (next m) b]
    ∧ MakeBlock sch time m
      = match (Snapshot_ApplyBlock
                 (state_Copy (store m (chain_State (chain (gen m))).2))
                 (legacy_MapBlock b)).2 with
        | Some e => (inr (Fatal e), m1)
        | None =>
            commitBlock sch b (next m) (chain_State (chain (gen m))).1 m1
        end.
Proof.
  intros Hpb Hnext. rewrite (MakeBlock_reuse _ _ _ _ Hpb Hnext).
  unfold reusePending, bind, copySnapshot, applyBlock, ret, halt. simpl.
  rewrite fn_lookup_insert.
  destruct (Snapshot_ApplyBlock _ _) as [snap [e|]]; simpl;
    (eexists; split_and!; [| |done]; simpl; [done|];
     by rewrite <-(assoc_L (++))).
Qed.

(** X15: a pending row at or above the height of the block just generated
    stops the cycle: on a database that answers, [MakeBlock] returns
    [errDuplicateBlock] wrapped with "saving pending block", asks no
    signer and commits nothing; the row is unchanged, and the
    transactions taken out of the pool are not put back. *)
Theorem MakeBlock_stopped_by_higher_pending_row sch time m pb r b snap :
  getPendingBlock (db (gen m)) = (pb, None) →
  ¬ reuseCondition pb (chain_State (chain (gen m))).1 →
  exec_fault (db (gen m)) = None → rows_fault (db (gen m)) = None →
  pending (db (gen m)) = Some r →
  chain_GenerateBlock (chain (gen m)) (chain_State (chain (gen m))).1
    (store m (chain_State (chain (gen m))).2) time (pool (gen m))
    = inl (b, snap) →
  Transactions b ≠ [] →
  Height b ≤ coalesceHeight r →
  ∃ m2,
    MakeBlock sch time m
      = (inl (Some (errors_Wrap errDuplicateBlock "saving pending block"),
              None), m2)
    ∧ trace m2
      = trace m ++ [EvSwapPool (pool (gen m));
                    EvGenerateBlock (chain_State (chain (gen m))).1 time
                      (pool (gen m));
                    EvSavePending b]
    ∧ db (gen m2) = db (gen m)
    ∧ chain (gen m2) = chain (gen m)
    ∧ pool (gen m2) = [].
Proof.
  intros Hpb Hreuse Hexec Hrows Hslot Hgen Htxs Hge.
  rewrite <-pendingIsNext_reuseCondition in Hreuse.
  apply not_true_is_false in Hreuse.
  rewrite (MakeBlock_fresh _ _ _ _ Hpb Hreuse).
  unfold generateFresh, bind, swapPool, GenerateBlock, savePending, ret.
  simpl. rewrite Hgen. simpl.
  rewrite bool_decide_eq_false_2
    by (intros Hlen; by apply length_zero_iff_nil in Hlen).
  simpl. rewrite (savePendingBlock_conflict _ _ _ Hexec Hrows Hslot Hge).
  simpl. eexists. split_and!; [done| |done|done|done]. simpl.
  by rewrite <-!(assoc_L (++)).
Qed.

(** X16: with no head block, a pending block whose height is not 1 is
    still reused: it is applied to the copied snapshot, and the cycle
    then stops on the absent previous block (a nil dereference in
    [getAndAddBlockSignatures]) without asking a signer or committing. *)
Theorem MakeBlock_without_head_needs_first_block sch time m b s :
  getPendingBlock (db (gen m)) = (Some b, None) →
  chain_State (chain (gen m)) = (None, s) →
  Height b ≠ 1 →
  (Snapshot_ApplyBlock (state_Copy (store m s)) (legacy_MapBlock b)).2
    = None →
  (MakeBlock sch time m).1 = inr NilDereference
  ∧ trace (MakeBlock sch time m).2
    = trace m ++ [EvCopySnapshot s (next m); EvApplyBlock (next m) b]
  ∧ gen (MakeBlock sch time m).2 = gen m.
Proof.
  intros Hpb Hstate Hh Happly.
  destruct (MakeBlock_reuse_run sch time m b Hpb) as (m1 & Hg & Htr & ->).
  { by rewrite Hstate. }
  rewrite Hstate. simpl. rewrite Happly.
  unfold commitBlock, bind, getAndAddBlockSignatures, halt.
  rewrite bool_decide_eq_false_2 by done. simpl.
  rewrite Hstate in Htr. done.
Qed.

(** After an error wrapped with "sign" the generator is as [commitBlock]
    found it. *)
Lemma commitBlock_sign_error sch b s prevBlock m e :
  (commitBlock sch b s prevBlock m).1
    = inl (Some (errors_Wrap e "sign"), None) →
  gen (commitBlock sch b s prevBlock m).2 = gen m.
Proof.
  intros Hrun.
  destruct (commitBlock_result _ _ _ _ _ _ _ Hrun)
    as [[? _]|(_ & [(e' & _ & Hg)|(e' & ?)])]; [done|done|].
  by simplify_eq.
Qed.

(** X17: a cycle that generated and saved a block and then failed at
    signing is retried on that very block: provided the block's height is
    the head's plus one and the database answers queries, the next
    [MakeBlock] on the machine the failed cycle left reads the saved
    block, generates nothing, applies it to a fresh copy of the head
    snapshot and goes on to sign and commit it. *)
Theorem failed_signing_is_retried_on_saved_block sch time m pb latest b snap
    e sch' time' :
  getPendingBlock (db (gen m)) = (pb, None) →
  query_fault (db (gen m)) = None →
  (chain_State (chain (gen m))).1 = Some latest →
  ¬ reuseCondition pb (Some latest) →
  chain_GenerateBlock (chain (gen m)) (Some latest)
    (store m (chain_State (chain (gen m))).2) time (pool (gen m))
    = inl (b, snap) →
  Transactions b ≠ [] →
  Height b = wrap64 (Height latest + 1) →
  (MakeBlock sch time m).1 = inl (Some (errors_Wrap e "sign"), None) →
  ∃ m1,
    gen m1 = gen (MakeBlock sch time m).2
    ∧ trace m1
      = trace (MakeBlock sch time m).2
          ++ [EvCopySnapshot (chain_State (chain (gen m))).2
                (next (MakeBlock sch time m).2);
              EvApplyBlock (next (MakeBlock sch time m).2) b]
    ∧ MakeBlock sch' time' (MakeBlock sch time m).2
      = match (Snapshot_ApplyBlock
                 (state_Copy (store (MakeBlock sch time m).2
                                (chain_State (chain (gen m))).2))
                 (legacy_MapBlock b)).2 with
        | Some e' => (inr (Fatal e'), m1)
        | None =>
            commitBlock sch' b (next (MakeBlock sch time m).2)
              (Some latest) m1
        end.
Proof.
  intros Hpb Hquery Hlatest Hreuse Hgen Htxs Hh Hfail.
  assert (chain (gen (MakeBlock sch time m).2) = chain (gen m)
          ∧ getPendingBlock (db (gen (MakeBlock sch time m).2))
            = (Some b, None)) as [Hch Hpb'].
  { rewrite <-Hlatest in Hreuse.
    rewrite <-pendingIsNext_reuseCondition in Hreuse.
    apply not_true_is_false in Hreuse. revert Hfail.
    rewrite (MakeBlock_fresh _ _ _ _ Hpb Hreuse). rewrite Hlatest.
    unfold generateFresh, bind, swapPool, GenerateBlock, savePending, ret.
    simpl. rewrite Hgen. simpl.
    rewrite bool_decide_eq_false_2
      by (intros Hlen; by apply length_zero_iff_nil in Hlen).
    simpl.
    pose proof (λ d', savePendingBlock_saved (db (gen m)) d' b)
      as saved_slot.
    destruct (savePendingBlock_faults (db (gen m)) b) as (Hq & _).
    destruct (savePendingBlock (db (gen m)) b) as [[e0|] d] eqn:Hsave; simpl.
    { intros ?. by simplify_eq. }
    intros Hfail. rewrite (commitBlock_sign_error _ _ _ _ _ _ Hfail). simpl.
    split; [done|]. unfold getPendingBlock, db_QueryRow_Scan.
    simpl in Hq. rewrite Hq, Hquery. by rewrite (saved_slot d eq_refl). }
  destruct (MakeBlock_reuse_run sch' time' (MakeBlock sch time m).2 b Hpb')
    as (m1 & Hg & Htr & Hrun).
  { rewrite Hch, Hlatest. simpl. by apply bool_decide_eq_true_2. }
  rewrite Hch in Htr, Hrun. rewrite Hlatest in Hrun.
  exists m1. done.
Qed.

End Generator.

(** ** A federation of three *)

Module Federation.

Definition byteOf (z : Z) : Byte.byte :=
  default Byte.x00 (Byte.of_N (Z.to_N z)).

Abbreviation TBlock := (@Block nat).
Abbreviation TChain := (option TBlock * nat)%type.
Abbreviation TMachine := (@Machine nat (list Z) TChain).

(** Keys are single bytes, the signature of a message under a key is the
    key followed by the message, a consensus program is the quorum
    followed by the keys, a snapshot is the list of the heights applied,
    and the chain is its head block with the address of its snapshot. *)
#[global] Instance collaborators : @Collaborators nat (list Z) Z TChain := {|
  ed25519_Verify key msg sig := bool_decide (sig = key ++ msg);
  vmutil_ParseBlockMultiSigProgram prog :=
    match prog with
    | q :: ks => inl (map (λ k, [k]) ks, Z.of_N (Byte.to_N q))
    | [] => inr (errors_New "empty program")
    end;
  Block_Hash b := mkHash [byteOf (Height b)];
  encodeSignable h txs prog := inl (byteOf h :: prog);
  legacy_MapBlock b := Height b;
  state_Copy s := s;
  Snapshot_ApplyBlock s h := (h :: s, None);
  chain_State c := c;
  chain_GenerateBlock c prev snap time txs :=
    let h := match prev with Some p => Height p + 1 | None => 1 end in
    inl (mkBlock h txs
           (match prev with Some p => ConsensusProgram p | None => [] end) [],
         h :: snap);
  chain_CommitAppliedBlock c b s := ((Some b, c.2), None);
|}.

(** A signer holding [key], a signer that times out, and a signer that
    returns bytes no key verifies. *)
Definition honest (key : Byte.byte) : BlockSigner :=
  mkSigner (λ mb, (Some (key :: take 1 mb), None)).
Definition silent : BlockSigner :=
  mkSigner (λ mb, (None, Some (errors_New "timeout"))).
Definition forger : BlockSigner :=
  mkSigner (λ mb, (Some [Byte.x7a], None)).

Definition keyA : Byte.byte := Byte.x61.
Definition keyB : Byte.byte := Byte.x62.
Definition keyC : Byte.byte := Byte.x63.

(** Two of the three keys must sign. *)
Definition program : bytes := [Byte.x02; keyA; keyB; keyC].
Definition block4 : TBlock := mkBlock 4 [7%nat] program [].
Definition block5 : TBlock := mkBlock 5 [8%nat; 9%nat] program [].
Definition block6 : TBlock := mkBlock 6 [10%nat] program [].

Definition database (slot : option PendingRow) : DB (Tx:=nat) :=
  mkDB slot None None None.

Definition machine (head : option TBlock) (slot : option PendingRow)
    (txs : list nat) (ss : list BlockSigner) : TMachine :=
  mkMachine (mkGenerator (head, 0%nat) (database slot) txs ∅ ss)
    (λ _, []) 1 [].

Definition inOrder : Schedule := mkSchedule [0; 1; 2]%nat false.
Definition reversed : Schedule := mkSchedule [2; 1; 0]%nat false.

(** Machines: three honest signers; one key held twice and a signer that
    times out; a single signer; a pending block left by an earlier cycle,
    with and without a head block; an empty pool; a chain not started. *)
Definition allHonest : TMachine :=
  machine (Some block4) None [8; 9]%nat [honest keyA; honest keyB; honest keyC].
Definition oneKey : TMachine :=
  machine (Some block4) None [8; 9]%nat [honest keyA; silent; honest keyA].
Definition oneSigner : TMachine :=
  machine (Some block4) None [8; 9]%nat [honest keyA].
Definition recovering : TMachine :=
  machine (Some block4) (Some (mkRow block5 (Some 5))) []
    [honest keyA; honest keyB; honest keyC].
Definition headless : TMachine :=
  machine None (Some (mkRow block5 (Some 5))) [4%nat] [honest keyA].
Definition restarted : TMachine :=
  machine None (Some (mkRow (mkBlock 1 [1%nat] [] []) (Some 1))) [4%nat]
    [honest keyA].
Definition idle : TMachine :=
  machine (Some block4) None [] [honest keyA; honest keyB; honest keyC].
Definition starting : TMachine :=
  machine None None [1%nat] [].

End Federation.

Import Federation.

(** ** The properties on the federation *)

(** The collection error as the caller reads it. *)
Example collection_error_message :
  Error (errors_Wrap (errGotOf 1 2) "sign")
  = "sign: got 1 of 2 needed signatures".
Proof. vm_compute. reflexivity. Qed.

(** Three honest signers, two signatures needed: the block is committed with the signatures under the first two keys. *)
Lemma MakeBlock_quorum_reached_witness :
  ∃ w slots m2,
    MakeBlock inOrder 100 allHonest
      = (inl (None, Some (Bytes (Block_Hash (setWitness block5 w)))), m2)
    ∧ last (trace m2) = Some (EvCommitAppliedBlock (setWitness block5 w) 1)
    ∧ length w = 2%nat
    ∧ StronglySorted lt slots
    ∧ Forall2 (λ k sig,
                 (∃ key, [[keyA]; [keyB]; [keyC]] !! k = Some key
                         ∧ ed25519_Verify key (Bytes (Block_Hash block5)) sig
                           = true)
                 ∧ ∃ i, i ∈ arrivals inOrder
                        ∧ signatureOf (signers (gen allHonest))
                            (byteOf 5 :: program) i = Some sig)
        slots w.
Proof.
  refine (MakeBlock_quorum_reached inOrder 100 allHonest
           (prepareBlock 100 allHonest).2 block5 1 block4
           [[keyA]; [keyB]; [keyC]] 2 (byteOf 5 :: program) [0; 1]%nat _ _ _ _ _ _ _ _ _ _).
  - vm_compute. reflexivity.
  - reflexivity.
  - simpl. lia.
  - reflexivity.
  - by apply (bool_decide_unpack _); vm_compute.
  - intros i Hi. simpl in *.
    repeat (apply elem_of_cons in Hi as [->|Hi]; [lia|]).
    by apply elem_of_nil in Hi.
  - by apply (bool_decide_unpack _); vm_compute.
  - simpl. lia.
  - intros k Hk.
    repeat (apply elem_of_cons in Hk as [->|Hk]);
      [exists 0%nat, [keyA; byteOf 5]|exists 1%nat, [keyB; byteOf 5]
      |by apply elem_of_nil in Hk];
      (split_and!;
       [by apply (bool_decide_unpack _); vm_compute|reflexivity
       |apply indexKey_firstMatch; vm_compute; reflexivity]).
  - intros w. reflexivity.
Defined.

(** Two signers hold the same key and the third times out: one key is matched, two are needed. *)
Lemma MakeBlock_quorum_missed_witness :
  ∃ m2 evs,
    MakeBlock reversed 100 oneKey
      = (inl (Some (errors_Wrap (errGotOf 1 2) "sign"), None), m2)
    ∧ trace m2 = trace oneKey ++ evs
    ∧ (∀ b' s', EvCommitAppliedBlock b' s' ∉ evs)
    ∧ chain (gen m2) = chain (gen oneKey)
    ∧ db (gen m2) = db (gen (prepareBlock 100 oneKey).2).
Proof.
  refine (MakeBlock_quorum_missed reversed 100 oneKey
           (prepareBlock 100 oneKey).2 block5 1 block4
           [[keyA]; [keyB]; [keyC]] 2 (byteOf 5 :: program) _ _ _ _ _ _).
  - vm_compute. reflexivity.
  - reflexivity.
  - simpl. lia.
  - reflexivity.
  - symmetry. apply (Permutation_rev [0; 1; 2]%nat).
  - vm_compute. reflexivity.
Defined.

(** Saving the block of height 6 over the row of height 5. *)
Lemma savePendingBlock_conditional_upsert_witness :
  ((savePendingBlock (database (Some (mkRow block5 (Some 5)))) block6).1 = None
   ∧ pending (savePendingBlock (database (Some (mkRow block5 (Some 5))))
                block6).2
     = Some (mkRow block6 (Some 6))
   ↔ pending (database (Some (mkRow block5 (Some 5)))) = None
     ∨ ∃ r, pending (database (Some (mkRow block5 (Some 5)))) = Some r
            ∧ coalesceHeight r < 6)
  ∧ (∀ r, pending (database (Some (mkRow block5 (Some 5)))) = Some r →
          6 ≤ coalesceHeight r →
          savePendingBlock (database (Some (mkRow block5 (Some 5)))) block6
          = (Some errDuplicateBlock, database (Some (mkRow block5 (Some 5)))))
  ∧ (∀ d' e, exec_fault d' = Some e ∨ rows_fault d' = Some e →
             ∃ e' msg, (savePendingBlock d' block6).1
                       = Some (errors_Wrap e' msg)
                       ∧ errors_Wrap e' msg ≠ errDuplicateBlock).
Proof.
  refine (savePendingBlock_conditional_upsert
           (database (Some (mkRow block5 (Some 5)))) block6 _ _);
    reflexivity.
Defined.

(** The pending block of height 5 on a head of height 4 is reused. *)
Lemma MakeBlock_reuse_or_generate_witness :
  ∃ b m1,
    Some block5 = Some b
    ∧ gen m1 = gen recovering
    ∧ trace m1 = [EvCopySnapshot 0 1; EvApplyBlock 1 b]
    ∧ next m1 = 2%nat
    ∧ store m1 1%nat = [Height b]
    ∧ (∀ a, a ≠ 1%nat → store m1 a = store recovering a)
    ∧ MakeBlock inOrder 100 recovering
      = commitBlock inOrder b 1 (Some block4) m1.
Proof.
  refine (proj1 (MakeBlock_reuse_or_generate inOrder 100 recovering
                   (Some block5) eq_refl) _).
  exists block5. split; [reflexivity|]. right. exists block4.
  split; [reflexivity|]. vm_compute. reflexivity.
Defined.

(** C4, as stated, fails without a head block: the stored pending block
    is then reused whatever its height. The pending block of height 1 is
    applied to a copy of the snapshot and committed; the pending block of
    height 5, whose height is not one more than any head height, is applied
    as well (the cycle then stops on the absent previous block). Nothing is
    generated and the pool is untouched in either cycle. *)
Lemma MakeBlock_reuses_pending_without_head :
  (getPendingBlock (db (gen restarted))
   = (Some (mkBlock 1 [1%nat] [] []), None)
   ∧ chain_State (chain (gen restarted)) = (None, 0%nat)
   ∧ ¬ specReuseCondition (Some (mkBlock 1 [1%nat] [] [])) None
   ∧ (MakeBlock inOrder 100 restarted).1 = inl (None, Some [byteOf 1])
   ∧ trace (MakeBlock inOrder 100 restarted).2
     = [EvCopySnapshot 0 1; EvApplyBlock 1 (mkBlock 1 [1%nat] [] []);
        EvCommitAppliedBlock (mkBlock 1 [1%nat] [] []) 1]
   ∧ pool (gen (MakeBlock inOrder 100 restarted).2) = pool (gen restarted))
  ∧ (getPendingBlock (db (gen headless)) = (Some block5, None)
     ∧ chain_State (chain (gen headless)) = (None, 0%nat)
     ∧ ¬ specReuseCondition (Some block5) None
     ∧ Height block5 ≠ 0 + 1
     ∧ (MakeBlock inOrder 100 headless).1 = inr NilDereference
     ∧ trace (MakeBlock inOrder 100 headless).2
       = [EvCopySnapshot 0 1; EvApplyBlock 1 block5]
     ∧ pool (gen (MakeBlock inOrder 100 headless).2) = pool (gen headless)).
Proof.
  split; split_and!; try (vm_compute; reflexivity).
  - intros (b & latest & _ & Hhead & _). discriminate.
  - intros (b & latest & _ & Hhead & _). discriminate.
  - vm_compute. discriminate.
Qed.

(** An empty pool gives an empty block. *)
Lemma MakeBlock_empty_block_witness :
  ∃ m2,
    MakeBlock inOrder 100 idle = (inl (None, Some [byteOf 5]), m2)
    ∧ trace m2 = [EvSwapPool []; EvGenerateBlock (Some block4) 100 []]
    ∧ db (gen m2) = db (gen idle)
    ∧ chain (gen m2) = chain (gen idle).
Proof.
  refine (MakeBlock_empty_block inOrder 100 idle None
           (mkBlock 5 [] program []) [5] _ _ _ _).
  - reflexivity.
  - intros (b & Hb & _). discriminate.
  - reflexivity.
  - reflexivity.
Defined.

(** The first block of a chain. *)
Lemma MakeBlock_initial_block_witness :
  getAndAddBlockSignatures inOrder (mkBlock 1 [1%nat] [] []) None
    (prepareBlock 100 starting).2
  = (inl (None, mkBlock 1 [1%nat] [] []), (prepareBlock 100 starting).2)
  ∧ trace (MakeBlock inOrder 100 starting).2
    = trace (prepareBlock 100 starting).2
        ++ [EvCommitAppliedBlock (mkBlock 1 [1%nat] [] []) 1]
  ∧ (MakeBlock inOrder 100 starting).1 = inl (None, Some [byteOf 1])
  ∧ (∃ evs, trace (prepareBlock 100 starting).2 = trace starting ++ evs
            ∧ ∀ i payload, EvSignRequest i payload ∉ evs).
Proof.
  refine (MakeBlock_initial_block inOrder 100 starting
            (prepareBlock 100 starting).2 (mkBlock 1 [1%nat] [] []) 1 _ _).
  - vm_compute. reflexivity.
  - reflexivity.
Defined.

(** One signer configured, two signatures needed. *)
Lemma MakeBlock_too_few_signers_witness :
  getAndAddBlockSignatures inOrder block5 (Some block4)
    (prepareBlock 100 oneSigner).2
  = (inl (Some errTooFewSigners, block5), (prepareBlock 100 oneSigner).2)
  ∧ MakeBlock inOrder 100 oneSigner
    = (inl (Some (errors_Wrap errTooFewSigners "sign"), None),
       (prepareBlock 100 oneSigner).2)
  ∧ errors_Root (errors_Wrap errTooFewSigners "sign") = errTooFewSigners
  ∧ ∃ evs, trace (prepareBlock 100 oneSigner).2 = trace oneSigner ++ evs
           ∧ (∀ i payload, EvSignRequest i payload ∉ evs)
           ∧ (∀ b' s', EvCommitAppliedBlock b' s' ∉ evs).
Proof.
  refine (MakeBlock_too_few_signers inOrder 100 oneSigner
            (prepareBlock 100 oneSigner).2 block5 1 block4
            [[keyA]; [keyB]; [keyC]] 2 _ _ _).
  - vm_compute. reflexivity.
  - reflexivity.
  - vm_compute. reflexivity.
Defined.

(** The block of height 5 signed in two rounds, once with a witness attached. *)
Lemma signable_bytes_stable_witness :
  (∀ w, MarshalText (setWitness block5 w) = MarshalText block5)
  ∧ ∀ i1 payload1 i2 payload2,
      EvSignRequest i1 payload1
        ∈ trace (getAndAddBlockSignatures inOrder block5 (Some block4)
                   allHonest).2 →
      EvSignRequest i2 payload2
        ∈ trace (getAndAddBlockSignatures reversed
                   (setWitness block5 [[keyA]]) (Some block4) oneKey).2 →
      payload1 = payload2 ∧ MarshalText block5 = inl payload1.
Proof.
  refine (signable_bytes_stable inOrder reversed (Some block4) (Some block4)
            allHonest oneKey block5 (setWitness block5 [[keyA]])
            (trace (getAndAddBlockSignatures inOrder block5 (Some block4)
                      allHonest).2)
            (trace (getAndAddBlockSignatures reversed
                      (setWitness block5 [[keyA]]) (Some block4) oneKey).2)
            _ _ _ _ _); reflexivity.
Defined.

(** The block of height 5 is saved before the three requests. *)
Lemma MakeBlock_saves_before_signing_witness :
  ∃ evs,
    trace (MakeBlock inOrder 100 allHonest).2
    = [EvSwapPool [8; 9]%nat; EvGenerateBlock (Some block4) 100 [8; 9]%nat;
       EvSavePending block5] ++ evs
    ∧ (∀ e, (savePendingBlock (db (gen allHonest)) block5).1 = Some e →
            evs = []
            ∧ (MakeBlock inOrder 100 allHonest).1
              = inl (Some (errors_Wrap e "saving pending block"), None))
    ∧ (∀ i payload, EvSignRequest i payload ∈ evs →
         (savePendingBlock (db (gen allHonest)) block5).1 = None
         ∧ pending (db (gen (MakeBlock inOrder 100 allHonest).2))
           = Some (mkRow block5 (Some 5))
         ∧ MarshalText block5 = inl payload).
Proof.
  refine (MakeBlock_saves_before_signing inOrder 100 allHonest None block5
            [5] _ _ _ _).
  - reflexivity.
  - intros (b & Hb & _). discriminate.
  - reflexivity.
  - discriminate.
Defined.

(** A second signature under the first key, whose slot is filled. *)
Lemma duplicate_signature_discarded_witness :
  let ss := [honest keyA; honest keyA; honest keyB] in
  let st := mkCollected [Some [keyA; byteOf 5]; None; None] 1 [] in
  let reply := replyOf (launch inOrder (byteOf 5 :: program) ss) 1 in
  let st' :=
    collectReply [[keyA]; [keyB]; [keyC]] block5 (Block_Hash block5) st reply in
  goodSigs st' = goodSigs st
  ∧ nready st' = nready st
  ∧ nonNilSigs (goodSigs st') = nonNilSigs (goodSigs st)
  ∧ logged st' = logged st ++ reply.2
  ∧ (∀ h sig', EvLogInvalidSignature h sig' ∉ reply.2)
  ∧ collect [[keyA]; [keyB]; [keyC]] 2 block5 (Block_Hash block5)
      (launch inOrder (byteOf 5 :: program) ss) 2 [1; 2]%nat st
    = collect [[keyA]; [keyB]; [keyC]] 2 block5 (Block_Hash block5)
        (launch inOrder (byteOf 5 :: program) ss) 1 [2%nat] st'
  ∧ ∀ st0 reply0 sig0,
      reply0.1 = Some sig0 →
      indexKey [[keyA]; [keyB]; [keyC]] (Bytes (Block_Hash block5)) sig0
        = -1 →
      logged (collectReply [[keyA]; [keyB]; [keyC]] block5
                (Block_Hash block5) st0 reply0)
      = logged st0 ++ reply0.2
          ++ [EvLogInvalidSignature (Block_Hash block5) sig0].
Proof.
  refine (duplicate_signature_discarded [[keyA]; [keyB]; [keyC]] 2 block5
            (Block_Hash block5) inOrder (byteOf 5 :: program)
            [honest keyA; honest keyA; honest keyB] 1 1 [2%nat]
            (mkCollected [Some [keyA; byteOf 5]; None; None] 1 [])
            [keyA; byteOf 5] 0 [keyA; byteOf 5] _ _ _ _).
  - simpl. lia.
  - reflexivity.
  - apply indexKey_firstMatch. vm_compute. reflexivity.
  - reflexivity.
Defined.

(** ** Further scenarios *)

Module Scenarios.

(** A key set that lists the first key twice. *)
Definition repeatedKeys : list PublicKey := [[keyA]; [keyB]; [keyA]].

(** A previous block whose program asks for no signature. *)
Definition unsignedHead : TBlock := mkBlock 4 [7%nat] [Byte.x00] [].

(** The bytes of the block of height 5 and its signatures. *)
Definition marshalled5 : bytes := byteOf 5 :: program.
Definition sigA5 : bytes := [keyA; byteOf 5].
Definition sigB5 : bytes := [keyB; byteOf 5].

(** A pending row left above the height the chain will generate next. *)
Definition block7 : TBlock := mkBlock 7 [11%nat] program [].
Definition overtaken : TMachine :=
  machine (Some block4) (Some (mkRow block7 (Some 7))) [8; 9]%nat
    [honest keyA; honest keyB; honest keyC].

End Scenarios.

Import Scenarios.

(** The later position of the repeated key is never filled. *)
Lemma repeated_key_slot_stays_empty_witness :
  (∀ msg sig, indexKey repeatedKeys msg sig ≠ 2)
  ∧ goodSigs (collect repeatedKeys 3 block5 (Block_Hash block5)
                (launch inOrder marshalled5
                   [honest keyA; honest keyA; honest keyB])
                3 [0; 1; 2]%nat (emptyCollected repeatedKeys)).2 !! 2%nat
    = Some None.
Proof.
  refine (repeated_key_slot_stays_empty repeatedKeys 3 block5
            (Block_Hash block5)
            (launch inOrder marshalled5
               [honest keyA; honest keyA; honest keyB])
            3 [0; 1; 2]%nat 0 2 [keyA] _ _ _).
  - reflexivity.
  - reflexivity.
  - lia.
Defined.

(** The third reply arrives after the quorum of two is reached. *)
Lemma late_replies_are_ignored_witness :
  collect [[keyA]; [keyB]; [keyC]] 2 block5 (Block_Hash block5)
    (launch inOrder marshalled5 (signers (gen allHonest))) 3
    ([0; 1]%nat ++ [2%nat]) (emptyCollected [[keyA]; [keyB]; [keyC]])
  = collect [[keyA]; [keyB]; [keyC]] 2 block5 (Block_Hash block5)
      (launch inOrder marshalled5 (signers (gen allHonest))) 3
      [0; 1]%nat (emptyCollected [[keyA]; [keyB]; [keyC]]).
Proof.
  refine (late_replies_are_ignored [[keyA]; [keyB]; [keyC]] 2 block5
            (Block_Hash block5)
            (launch inOrder marshalled5 (signers (gen allHonest))) 3
            [0; 1]%nat [2%nat] (emptyCollected [[keyA]; [keyB]; [keyC]]) _).
  vm_compute. reflexivity.
Defined.

(** Signing the block of height 5 assigns its witness and nothing else. *)
Lemma signing_changes_only_the_witness_witness :
  Height (setWitness block5 [sigA5; sigB5]) = Height block5
  ∧ Transactions (setWitness block5 [sigA5; sigB5]) = Transactions block5
  ∧ ConsensusProgram (setWitness block5 [sigA5; sigB5])
    = ConsensusProgram block5
  ∧ (∀ e : error, None = Some e → setWitness block5 [sigA5; sigB5] = block5)
  ∧ gen (getAndAddBlockSignatures inOrder block5 (Some block4) allHonest).2
    = gen allHonest
  ∧ store (getAndAddBlockSignatures inOrder block5 (Some block4) allHonest).2
    = store allHonest
  ∧ next (getAndAddBlockSignatures inOrder block5 (Some block4) allHonest).2
    = next allHonest.
Proof.
  refine (signing_changes_only_the_witness inOrder block5 (Some block4)
            allHonest None (setWitness block5 [sigA5; sigB5])
            (getAndAddBlockSignatures inOrder block5 (Some block4)
               allHonest).2 _).
  vm_compute. reflexivity.
Defined.

(** The witness of the block of height 5 signed by three honest signers. *)
Lemma signed_witness_is_sound_witness :
  length (Witness (setWitness block5 [sigA5; sigB5])) = 2%nat
  ∧ ∃ slots,
      StronglySorted lt slots
      ∧ Forall2 (λ k sig,
                   (∃ key, [[keyA]; [keyB]; [keyC]] !! k = Some key
                           ∧ ed25519_Verify key (Bytes (Block_Hash block5))
                               sig = true)
                   ∧ ∃ i mb, i ∈ arrivals inOrder
                             ∧ MarshalText block5 = inl mb
                             ∧ signatureOf (signers (gen allHonest)) mb i
                               = Some sig)
          slots (Witness (setWitness block5 [sigA5; sigB5])).
Proof.
  refine (signed_witness_is_sound inOrder block5 block4
            [[keyA]; [keyB]; [keyC]] 2 allHonest
            (setWitness block5 [sigA5; sigB5])
            (getAndAddBlockSignatures inOrder block5 (Some block4)
               allHonest).2 _ _).
  - reflexivity.
  - vm_compute. reflexivity.
Defined.

(** A program that asks for no signature: the three signers are sent the
    block and none is awaited. *)
Lemma zero_quorum_awaits_no_reply_witness :
  getAndAddBlockSignatures reversed block5 (Some unsignedHead) allHonest
  = (inl (None, setWitness block5 []),
     addTrace allHonest
       [EvSignRequest 0 marshalled5; EvSignRequest 1 marshalled5;
        EvSignRequest 2 marshalled5]).
Proof.
  refine (zero_quorum_awaits_no_reply reversed block5 unsignedHead [] 0
            marshalled5 allHonest _ _ _).
  - reflexivity.
  - lia.
  - reflexivity.
Defined.

(** The three requests of a round, then the log of the signer that timed
    out. *)
Lemma every_signer_is_asked_once_witness :
  ∃ logs,
    trace (getAndAddBlockSignatures reversed block5 (Some block4) oneKey).2
    = trace oneKey
        ++ [EvSignRequest 0 marshalled5; EvSignRequest 1 marshalled5;
            EvSignRequest 2 marshalled5]
        ++ logs
    ∧ Forall logEvent logs.
Proof.
  refine (every_signer_is_asked_once reversed block5 block4
            [[keyA]; [keyB]; [keyC]] 2 marshalled5 oneKey _ _ _).
  - reflexivity.
  - simpl. lia.
  - reflexivity.
Defined.

(** The request to the second signer of the round. *)
Lemma signers_contacted_only_when_ready_witness :
  ∃ prev pubkeys quorum,
    Some block4 = Some prev
    ∧ vmutil_ParseBlockMultiSigProgram (ConsensusProgram prev)
      = inl (pubkeys, quorum)
    ∧ quorum ≤ Z.of_nat (length (signers (gen allHonest)))
    ∧ MarshalText block5 = inl marshalled5
    ∧ (1 < length (signers (gen allHonest)))%nat.
Proof.
  refine (signers_contacted_only_when_ready inOrder block5 (Some block4)
            allHonest
            (trace (getAndAddBlockSignatures inOrder block5 (Some block4)
                      allHonest).2)
            1 marshalled5 _ _).
  - reflexivity.
  - vm_compute. apply list_elem_of_further, list_elem_of_here.
Defined.

(** The block of height 5 saved to an empty slot and read back. *)
Lemma saved_block_is_read_back_witness :
  getPendingBlock (savePendingBlock (database None) block5).2
  = (Some block5, None).
Proof.
  refine (saved_block_is_read_back (database None) block5 _ _); reflexivity.
Defined.

(** Saving the block of height 4 over the row of height 5 keeps the row. *)
Lemma pending_height_never_decreases_witness :
  ∃ r', pending (savePendingBlock (database (Some (mkRow block5 (Some 5))))
                   block4).2 = Some r'
        ∧ coalesceHeight (mkRow block5 (Some 5)) ≤ coalesceHeight r'
        ∧ (r' = mkRow block5 (Some 5) ∨ r' = mkRow block4 (Some 4)).
Proof.
  refine (pending_height_never_decreases
            (database (Some (mkRow block5 (Some 5)))) block4
            (mkRow block5 (Some 5)) _).
  reflexivity.
Defined.

(** The block of height 6 saved twice over the row of height 5. *)
Lemma second_save_is_refused_witness :
  savePendingBlock
    (savePendingBlock (database (Some (mkRow block5 (Some 5)))) block6).2
    block6
  = (Some errDuplicateBlock,
     (savePendingBlock (database (Some (mkRow block5 (Some 5)))) block6).2).
Proof.
  refine (second_save_is_refused (database (Some (mkRow block5 (Some 5))))
            block6 _ _); reflexivity.
Defined.

(** The cycle that misses the quorum returns an error and no hash. *)
Lemma MakeBlock_returns_hash_or_error_witness :
  (Some (errors_Wrap (errGotOf 1 2) "sign") = None
   ∧ ∃ h : bytes, None = Some h)
  ∨ (@None bytes = None
     ∧ ∃ e context,
         Some (errors_Wrap (errGotOf 1 2) "sign")
         = Some (errors_Wrap e context)
         ∧ context ∈ ["retrieving the pending block"; "generate";
                      "saving pending block"; "sign"; "commit"]).
Proof.
  refine (MakeBlock_returns_hash_or_error reversed 100 oneKey
            (Some (errors_Wrap (errGotOf 1 2) "sign")) None _).
  vm_compute. reflexivity.
Defined.

(** The head snapshot, at address 0, after the pending block is reused. *)
Lemma MakeBlock_keeps_existing_snapshots_witness :
  store (MakeBlock inOrder 100 recovering).2 0%nat = store recovering 0%nat
  ∧ (next recovering ≤ next (MakeBlock inOrder 100 recovering).2)%nat.
Proof.
  refine (MakeBlock_keeps_existing_snapshots inOrder 100 recovering 0 _).
  simpl. lia.
Defined.

(** A row of height 7 is in the slot when the block of height 5 is
    generated. *)
Lemma MakeBlock_stopped_by_higher_pending_row_witness :
  ∃ m2,
    MakeBlock inOrder 100 overtaken
      = (inl (Some (errors_Wrap errDuplicateBlock "saving pending block"),
              None), m2)
    ∧ trace m2
      = [EvSwapPool [8; 9]%nat; EvGenerateBlock (Some block4) 100 [8; 9]%nat;
         EvSavePending block5]
    ∧ db (gen m2) = db (gen overtaken)
    ∧ chain (gen m2) = chain (gen overtaken)
    ∧ pool (gen m2) = [].
Proof.
  refine (MakeBlock_stopped_by_higher_pending_row inOrder 100 overtaken
            (Some block7) (mkRow block7 (Some 7)) block5 [5]
            _ _ _ _ _ _ _ _).
  - reflexivity.
  - intros (b & Hb & [Hhead|(latest & Hhead & Hh)]); [discriminate|].
    injection Hb as <-. injection Hhead as <-.
    vm_compute in Hh. discriminate.
  - reflexivity.
  - reflexivity.
  - reflexivity.
  - reflexivity.
  - discriminate.
  - vm_compute. discriminate.
Defined.

(** The pending block of height 5 on a chain without head. *)
Lemma MakeBlock_without_head_needs_first_block_witness :
  (MakeBlock inOrder 100 headless).1 = inr NilDereference
  ∧ trace (MakeBlock inOrder 100 headless).2
    = trace headless ++ [EvCopySnapshot 0 1; EvApplyBlock 1 block5]
  ∧ gen (MakeBlock inOrder 100 headless).2 = gen headless.
Proof.
  refine (MakeBlock_without_head_needs_first_block inOrder 100 headless
            block5 0 _ _ _ _).
  - reflexivity.
  - reflexivity.
  - vm_compute. discriminate.
  - reflexivity.
Defined.

(** The cycle that missed the quorum, run again on the machine it left. *)
Lemma failed_signing_is_retried_on_saved_block_witness :
  ∃ m1,
    gen m1 = gen (MakeBlock reversed 100 oneKey).2
    ∧ trace m1
      = trace (MakeBlock reversed 100 oneKey).2
          ++ [EvCopySnapshot 0 2; EvApplyBlock 2 block5]
    ∧ MakeBlock inOrder 200 (MakeBlock reversed 100 oneKey).2
      = commitBlock inOrder block5 2 (Some block4) m1.
Proof.
  refine (failed_signing_is_retried_on_saved_block reversed 100 oneKey None
            block4 block5 [5] (errGotOf 1 2) inOrder 200
            _ _ _ _ _ _ _ _).
  - reflexivity.
  - reflexivity.
  - reflexivity.
  - intros (b & Hb & _). discriminate.
  - reflexivity.
  - discriminate.
  - vm_compute. reflexivity.
  - vm_compute. reflexivity.
Defined.
